(** * rustemmer: Porter stemming for Russian, shallow embedding of rustemmer.go

    The Go package keeps one [RuStemmer] value (fields [word], [RV], [R2])
    and mutates it through [findRegions] and [removeEndings].  The embedding
    threads that value explicitly through a small state-and-panic monad.
    Go strings are byte sequences, [[]rune] values are sequences of code
    points; the conversions between the two are the UTF-8 codec of the Go
    language, which is written out below because [removeEndings] converts
    back and forth on every call. *)

From Stdlib Require Import String.
From Stdlib Require Import ZArith List Bool Lia.
From Stdlib Require Import Strings.Byte.
Import ListNotations.

Local Open Scope Z_scope.

(** ** Go strings and runes *)

(** A Go [string] is an immutable sequence of bytes. *)
Definition gostring := list byte.

(** A Go [rune] is an [int32]; every rune handled here comes out of a
    string conversion, so no arithmetic on it can wrap. *)
Definition rune := Z.

(** String literals of the source are UTF-8 in the source file, and so are
    Rocq's. *)
Definition lit (s : string) : gostring := list_byte_of_string s.

Definition byte_val (b : byte) : Z := Z.of_N (Byte.to_N b).

Definition mk_byte (z : Z) : byte :=
  match Byte.of_N (Z.to_N z) with
  | Some b => b
  | None => x00
  end.

(** [len] of a slice or string, as a Go [int]. *)
Definition len {A} (l : list A) : Z := Z.of_nat (length l).

Definition RuneError : rune := 0xFFFD.

(** The runes a string conversion can produce: Unicode scalar values. *)
Definition valid_rune (r : rune) : Prop :=
  0 <= r < 0xD800 \/ 0xE000 <= r <= 0x10FFFF.

Definition valid_runeb (r : rune) : bool :=
  ((0 <=? r) && (r <? 0xD800)) || ((0xE000 <=? r) && (r <=? 0x10FFFF)).

(** *** [string(rune)]: UTF-8 encoding, invalid runes become U+FFFD *)

Definition encode3 (r : rune) : gostring :=
  [mk_byte (0xE0 + r / 4096); mk_byte (0x80 + (r / 64) mod 64);
   mk_byte (0x80 + r mod 64)].

Definition encode_rune (r : rune) : gostring :=
  if r <? 0 then encode3 RuneError
  else if r <=? 0x7F then [mk_byte r]
  else if r <=? 0x7FF then [mk_byte (0xC0 + r / 64); mk_byte (0x80 + r mod 64)]
  else if (0x10FFFF <? r) || ((0xD800 <=? r) && (r <=? 0xDFFF))
       then encode3 RuneError
  else if r <=? 0xFFFF then encode3 r
  else [mk_byte (0xF0 + r / 262144); mk_byte (0x80 + (r / 4096) mod 64);
        mk_byte (0x80 + (r / 64) mod 64); mk_byte (0x80 + r mod 64)].

(** [string(rs)] for [rs []rune]. *)
Definition string_of_runes (rs : list rune) : gostring :=
  flat_map encode_rune rs.

(** *** [[]rune(s)]: UTF-8 decoding, one U+FFFD per undecodable byte *)

(** Size of the sequence a leading byte announces, and the accepted range of
    its second byte (the table [first]/[acceptRanges] of unicode/utf8). *)
Definition lead_info (x0 : Z) : option (nat * Z * Z) :=
  if x0 <? 0x80 then Some (1%nat, 0, 0)
  else if x0 <? 0xC2 then None
  else if x0 <=? 0xDF then Some (2%nat, 0x80, 0xBF)
  else if x0 =? 0xE0 then Some (3%nat, 0xA0, 0xBF)
  else if x0 <=? 0xEC then Some (3%nat, 0x80, 0xBF)
  else if x0 =? 0xED then Some (3%nat, 0x80, 0x9F)
  else if x0 <=? 0xEF then Some (3%nat, 0x80, 0xBF)
  else if x0 =? 0xF0 then Some (4%nat, 0x90, 0xBF)
  else if x0 <=? 0xF3 then Some (4%nat, 0x80, 0xBF)
  else if x0 =? 0xF4 then Some (4%nat, 0x80, 0x8F)
  else None.

Definition in_range (lo hi x : Z) : bool := (lo <=? x) && (x <=? hi).

(** Continuation bytes are 10xxxxxx. *)
Definition is_cont (b : byte) : bool := in_range 0x80 0xBF (byte_val b).

(** [utf8.DecodeRuneInString]: the first rune of [s] and its width in
    bytes; [(RuneError, 1)] on any malformed or truncated sequence. *)
Definition decode_rune (s : gostring) : rune * nat :=
  match s with
  | [] => (RuneError, 0%nat)
  | b0 :: s1 =>
    let x0 := byte_val b0 in
    match lead_info x0 with
    | None => (RuneError, 1%nat)
    | Some (1%nat, _, _) => (x0, 1%nat)
    | Some (sz, lo, hi) =>
      match s1 with
      | [] => (RuneError, 1%nat)
      | b1 :: s2 =>
        let x1 := byte_val b1 in
        if negb (in_range lo hi x1) then (RuneError, 1%nat)
        else if (sz <=? 2)%nat then ((x0 - 0xC0) * 64 + (x1 - 0x80), 2%nat)
        else
          match s2 with
          | [] => (RuneError, 1%nat)
          | b2 :: s3 =>
            let x2 := byte_val b2 in
            if negb (is_cont b2) then (RuneError, 1%nat)
            else if (sz <=? 3)%nat
              then ((x0 - 0xE0) * 4096 + (x1 - 0x80) * 64 + (x2 - 0x80), 3%nat)
            else
              match s3 with
              | [] => (RuneError, 1%nat)
              | b3 :: _ =>
                let x3 := byte_val b3 in
                if negb (is_cont b3) then (RuneError, 1%nat)
                else ((x0 - 0xF0) * 262144 + (x1 - 0x80) * 4096
                      + (x2 - 0x80) * 64 + (x3 - 0x80), 4%nat)
              end
          end
      end
    end
  end.

(** The conversion loop: decode a rune at the current byte, then skip the
    remaining bytes of its encoding. *)
Fixpoint decode_from (skip : nat) (s : gostring) : list rune :=
  match s with
  | [] => []
  | _ :: s' =>
    match skip with
    | S k => decode_from k s'
    | O => let '(r, n) := decode_rune s in r :: decode_from (n - 1) s'
    end
  end.

Definition runes_of_string (s : gostring) : list rune := decode_from 0 s.

(** ** The functions of package [strings] that the stemmer calls *)

Fixpoint bytes_eqb (a b : gostring) : bool :=
  match a, b with
  | [], [] => true
  | x :: a', y :: b' => Byte.eqb x y && bytes_eqb a' b'
  | _, _ => false
  end.

Definition HasPrefix (s prefix : gostring) : bool :=
  (length prefix <=? length s)%nat && bytes_eqb (firstn (length prefix) s) prefix.

Definition HasSuffix (s suffix : gostring) : bool :=
  (length suffix <=? length s)%nat
  && bytes_eqb (skipn (length s - length suffix) s) suffix.

Definition TrimSuffix (s suffix : gostring) : gostring :=
  if HasSuffix s suffix then firstn (length s - length suffix) s else s.

(** [strings.Contains(s, substr)]: [substr] occurs at some byte offset. *)
Fixpoint Contains (s substr : gostring) : bool :=
  HasPrefix s substr
  || match s with
     | [] => false
     | _ :: s' => Contains s' substr
     end.

Fixpoint Join (elems : list gostring) (sep : gostring) : gostring :=
  match elems with
  | [] => []
  | [e] => e
  | e :: rest => e ++ sep ++ Join rest sep
  end.

(** ** The suffix tables *)

Definition VOWEL : gostring := lit "аеёиоуыэюя".

Fixpoint appendPrefix_inner (str : gostring) (prefixes : list gostring)
  : list gostring :=
  match prefixes with
  | [] => []
  | prefix :: ps => (prefix ++ str) :: appendPrefix_inner str ps
  end.

(** [appendPrefix(strs, prefixesPacks...)]: for each [str], for each pack,
    for each [prefix] of the pack, [prefix + str], in that order. *)
Definition appendPrefix (strs : list gostring)
  (prefixesPacks : list (list gostring)) : list gostring :=
  flat_map (fun str =>
    flat_map (fun prefixes => appendPrefix_inner str prefixes) prefixesPacks)
    strs.

Definition suffixNN : list gostring := map lit ["нн"]%string.

Definition suffixPerfectiveGerunds : list (list gostring) :=
  [ map lit ["в"; "вши"; "вшись"; "в"; "вши"; "вшись"]%string;
    map lit ["ив"; "ивши"; "ившись"; "ыв"; "ывши"; "ывшись"]%string ].

Definition suffixReflexives : list gostring := map lit ["ся"; "сь"]%string.

Definition suffixAdjective : list gostring := map lit
  ["ее"; "ие"; "ые"; "ое"; "ими"; "ыми"; "ей"; "ий"; "ый"; "ой"; "ем"; "им";
   "ым"; "ом"; "его"; "ого"; "ему"; "ому"; "их"; "ых"; "ую"; "юю"; "ая";
   "яя"; "ою"; "ею"]%string.

Definition suffixVerb : list (list gostring) :=
  [ map lit ["ла"; "на"; "ете"; "йте"; "ли"; "й"; "л"; "ем"; "н"; "ло"; "но";
             "ет"; "ют"; "ны"; "ть"; "ешь"; "нно"]%string;
    map lit ["ила"; "ыла"; "ена"; "ейте"; "уйте"; "ите"; "или"; "ыли"; "ей";
             "уй"; "ил"; "ыл"; "им"; "ым"; "ен"; "ило"; "ыло"; "ено"; "ят";
             "ует"; "уют"; "ит"; "ыт"; "ены"; "ить"; "ыть"; "ишь"; "ую";
             "ю"]%string ].

Definition suffixNoun : list gostring := map lit
  ["а"; "ев"; "ов"; "ие"; "ье"; "е"; "иями"; "ями"; "ами"; "еи"; "ии"; "и";
   "ией"; "ей"; "ой"; "ий"; "й"; "иям"; "ям"; "ием"; "ем"; "ам"; "ом"; "о";
   "у"; "ах"; "иях"; "ях"; "ы"; "ь"; "ию"; "ью"; "ю"; "ия"; "ья"; "я"]%string.

Definition suffixSuperlative : list gostring := map lit ["ейш"; "ейше"]%string.
Definition suffixSoftSign : list gostring := map lit ["ь"]%string.
Definition suffixI : list gostring := map lit ["и"]%string.
Definition suffixDerivational : list gostring := map lit ["ост"; "ость"]%string.

Definition suffixParticiple : list (list gostring) :=
  [ appendPrefix suffixAdjective [map lit ["ем"; "нн"; "вш"; "ющ"; "щ"]%string];
    appendPrefix suffixAdjective [map lit ["ивш"; "ывш"; "ующ"]%string] ].

(** ** The stemmer value and the monad that threads it *)

(** [type RuStemmer struct]; the mutex [mu] only serialises callers and
    holds no data of the algorithm. *)
Record RuStemmer := mkRuStemmer {
  word : list rune;
  RV : Z;
  R2 : Z
}.

(** [New()]. *)
Definition New : RuStemmer := mkRuStemmer (runes_of_string (lit "")) 0 0.

(** Run-time panics of the slice and index expressions. *)
Inductive panic := IndexOutOfRange | SliceBoundsOutOfRange.

Inductive result (A : Type) :=
| Ok (a : A) (r : RuStemmer)
| Panic (p : panic).
Arguments Ok {A} a r.
Arguments Panic {A} p.

(** A method with receiver [r *RuStemmer]. *)
Definition M (A : Type) := RuStemmer -> result A.

Definition ret {A} (a : A) : M A := fun r => Ok a r.

Definition bind {A B} (m : M A) (f : A -> M B) : M B :=
  fun r => match m r with
           | Ok a r' => f a r'
           | Panic p => Panic p
           end.

Definition raise {A} (p : panic) : M A := fun _ => Panic p.

Declare Scope stemmer_scope.
Delimit Scope stemmer_scope with stemmer.
Notation "x <- m ;; k" := (bind m (fun x => k))
  (at level 61, m at next level, right associativity) : stemmer_scope.
Notation "m ;; k" := (bind m (fun _ => k))
  (at level 61, right associativity) : stemmer_scope.
Local Open Scope stemmer_scope.

Definition get_word : M (list rune) := fun r => Ok (word r) r.
Definition get_RV : M Z := fun r => Ok (RV r) r.
Definition get_R2 : M Z := fun r => Ok (R2 r) r.
Definition set_word (w : list rune) : M unit :=
  fun r => Ok tt (mkRuStemmer w (RV r) (R2 r)).
Definition set_RV (v : Z) : M unit :=
  fun r => Ok tt (mkRuStemmer (word r) v (R2 r)).
Definition set_R2 (v : Z) : M unit :=
  fun r => Ok tt (mkRuStemmer (word r) (RV r) v).

(** [a[i]]: panics unless [0 <= i < len(a)]. *)
Definition index {A} (a : list A) (i : Z) : M A :=
  if (i <? 0) || (len a <=? i) then raise IndexOutOfRange
  else match nth_error a (Z.to_nat i) with
       | Some x => ret x
       | None => raise IndexOutOfRange
       end.

(** [a[:hi]] and [a[lo:]]: panic unless the bound is within [0 .. len(a)]. *)
Definition slice_to {A} (a : list A) (hi : Z) : M (list A) :=
  if (hi <? 0) || (len a <? hi) then raise SliceBoundsOutOfRange
  else ret (firstn (Z.to_nat hi) a).

Definition slice_from {A} (a : list A) (lo : Z) : M (list A) :=
  if (lo <? 0) || (len a <? lo) then raise SliceBoundsOutOfRange
  else ret (skipn (Z.to_nat lo) a).

(** Go's short-circuit [||] and [&&] over effectful operands. *)
Definition orM (a b : M bool) : M bool :=
  x <- a ;; if x then ret true else b.

Definition andM (a b : M bool) : M bool :=
  x <- a ;; if x then b else ret false.

Definition notM (a : M bool) : M bool :=
  x <- a ;; ret (negb x).

(** ** The stemmer *)

(** [func trimFirstSuffix(word string, suffixes []string, isAYA bool) string] *)
Fixpoint trimFirstSuffix (word : gostring) (suffixes : list gostring)
  (isAYA : bool) : gostring :=
  match suffixes with
  | [] => word
  | suffix :: rest =>
    if isAYA && negb (HasSuffix word (lit "а" ++ suffix)
                      || HasSuffix word (lit "я" ++ suffix))
    then trimFirstSuffix word rest isAYA
    else
      let result := TrimSuffix word suffix in
      if negb (bytes_eqb result word) then result
      else trimFirstSuffix word rest isAYA
  end.

(** The last block of [removeEndings]: scan [suffixes] with no
    precondition. *)
Definition removeEndings_plain (prefix : list rune) (word_ : gostring)
  (suffixes : list gostring) : M bool :=
  let result := trimFirstSuffix word_ suffixes false in
  if negb (bytes_eqb result word_) then
    set_word (runes_of_string (string_of_runes prefix ++ result)) ;;
    ret true
  else ret false.

(** [func (r *RuStemmer) removeEndings(region int, suffixesPacks ...[]string) bool] *)
Definition removeEndings (region : Z) (suffixesPacks : list (list gostring))
  : M bool :=
  w <- get_word ;;
  let region := if len w <? region then len w else region in
  prefix <- slice_to w region ;;
  rest <- slice_from w (len prefix) ;;
  let word_ := string_of_runes rest in
  suffixes <- index suffixesPacks 0 ;;
  if len suffixesPacks =? 2 then
    let result := trimFirstSuffix word_ suffixes true in
    if negb (bytes_eqb result word_) then
      set_word (runes_of_string (string_of_runes prefix ++ result)) ;;
      ret true
    else
      suffixes <- index suffixesPacks 1 ;;
      removeEndings_plain prefix word_ suffixes
  else removeEndings_plain prefix word_ suffixes.

(** [func (r *RuStemmer) isVowel(char string) bool] *)
Definition isVowel (char : gostring) : bool := Contains VOWEL char.

(** The loop of [findRegions]: [n] iterations remain, the next one at
    index [i] (the loop runs [i] from 1 while [i < wordLength], and the
    word is not modified inside it).  The [return] in state 2 leaves the
    loop. *)
Fixpoint findRegions_loop (n : nat) (i : Z) (state : Z) : M unit :=
  match n with
  | O => ret tt
  | S n' =>
    w <- get_word ;;
    p <- index w (i - 1) ;;
    c <- index w i ;;
    let prevChar := encode_rune p in
    let char := encode_rune c in
    if state =? 0 then
      if isVowel char then
        set_RV (i + 1) ;; findRegions_loop n' (i + 1) 1
      else findRegions_loop n' (i + 1) state
    else if state =? 1 then
      if isVowel prevChar && negb (isVowel char) then
        findRegions_loop n' (i + 1) 2
      else findRegions_loop n' (i + 1) state
    else if state =? 2 then
      if isVowel prevChar && negb (isVowel char) then
        set_R2 (i + 1) ;; ret tt
      else findRegions_loop n' (i + 1) state
    else findRegions_loop n' (i + 1) state
  end.

(** [func (r *RuStemmer) findRegions()] *)
Definition findRegions : M unit :=
  w <- get_word ;;
  let wordLength := len w in
  findRegions_loop (Z.to_nat (wordLength - 1)) 1 0.

(** Step 1 of [GetWordBase]. *)
Definition Step1 : M unit :=
  rv <- get_RV ;;
  gerund <- removeEndings rv suffixPerfectiveGerunds ;;
  if negb gerund then
    rv <- get_RV ;;
    removeEndings rv [suffixReflexives] ;;
    ife <- orM (rv <- get_RV ;; removeEndings rv suffixParticiple)
               (rv <- get_RV ;; removeEndings rv [suffixAdjective]) ;;
    go <- andM (ret (negb ife))
               (notM (rv <- get_RV ;; removeEndings rv suffixVerb)) ;;
    if go then
      rv <- get_RV ;; removeEndings rv [suffixNoun] ;; ret tt
    else ret tt
  else ret tt.

(** Step 2: a trailing "и". *)
Definition Step2 : M unit :=
  rv <- get_RV ;; removeEndings rv [suffixI] ;; ret tt.

(** Step 3: a derivational ending in R2. *)
Definition Step3 : M unit :=
  r2 <- get_R2 ;; removeEndings r2 [suffixDerivational] ;; ret tt.

(** Step 4: "нн" to "н", superlative, soft sign. *)
Definition Step4 : M unit :=
  rv <- get_RV ;;
  nn <- removeEndings rv [suffixNN] ;;
  (if nn then
     w <- get_word ;;
     set_word (runes_of_string (string_of_runes w ++ lit "н"))
   else ret tt) ;;
  rv <- get_RV ;; removeEndings rv [suffixSuperlative] ;;
  rv <- get_RV ;; removeEndings rv [suffixSoftSign] ;;
  ret tt.

(** [func (r *RuStemmer) GetWordBase(word string) string] *)
Definition RuStemmer_GetWordBase (word : gostring) : M gostring :=
  set_word (runes_of_string word) ;;
  set_RV 0 ;;
  set_R2 0 ;;
  findRegions ;;
  Step1 ;;
  Step2 ;;
  Step3 ;;
  Step4 ;;
  w <- get_word ;;
  ret (string_of_runes w).

(** [func GetWordBase(word string) string]: the method on the package's
    [instance], whatever state the previous call left in it. *)
Definition GetWordBase (word : gostring) : M gostring :=
  RuStemmer_GetWordBase word.

(** ** Text normalisation *)

(** [for k, word := range words { words[k] = f(word) }] *)
Fixpoint for_each_word (f : gostring -> M gostring) (words : list gostring)
  : M (list gostring) :=
  match words with
  | [] => ret []
  | word :: rest =>
    base <- f word ;;
    rest' <- for_each_word f rest ;;
    ret (base :: rest')
  end.

Section Regexp.

(** The Unicode general category L (letters) of Go's [unicode] tables,
    which the class [\p{L}] of package [regexp] consults.  The table is
    not part of this repository; it is a parameter of the development. *)
Variable unicode_L : rune -> bool.

(** The character class [[\p{L}\d_]]; [\d] is the ASCII digits. *)
Definition word_char (c : rune) : bool :=
  unicode_L c || in_range 48 57 c || (c =? 95).

Definition emit (cur : gostring) : list gostring :=
  match cur with
  | [] => []
  | _ => [cur]
  end.

(** Leftmost, greedy, non-overlapping matches of [[\p{L}\d_]+]: the
    maximal runs of class characters.  The matcher reads the text rune by
    rune with [utf8.DecodeRuneInString]; [cur] holds the bytes of the run
    being read, [skip] the bytes of the current rune still to pass. *)
Fixpoint find_words (skip : nat) (inword : bool) (cur s : gostring)
  : list gostring :=
  match s with
  | [] => emit cur
  | b :: s' =>
    match skip with
    | S k => find_words k inword (if inword then cur ++ [b] else cur) s'
    | O =>
      let '(c, n) := decode_rune s in
      if word_char c then find_words (n - 1) true (cur ++ [b]) s'
      else emit cur ++ find_words (n - 1) false [] s'
    end
  end.

(** [regexp.MustCompile("[\\p{L}\\d_]+").FindAllString(text, -1)] *)
Definition FindAllString (text : gostring) : list gostring :=
  find_words 0 false [] text.

(** [func (r *RuStemmer) NormalizeText(text string) string] *)
Definition RuStemmer_NormalizeText (text : gostring) : M gostring :=
  let words := FindAllString text in
  words <- for_each_word RuStemmer_GetWordBase words ;;
  ret (Join words (lit " ")).

(** [func NormalizeText(text string) string] *)
Definition NormalizeText (text : gostring) : M gostring :=
  RuStemmer_NormalizeText text.

End Regexp.

(** ** Vocabulary of the statements *)

(** *** Suffix matching *)

(** [s] ends with [suffix]. *)
Definition ends_with (s suffix : gostring) : Prop :=
  exists t, s = t ++ suffix.

(** The condition under which the loop body of [trimFirstSuffix] returns at
    [suffix]: the word ends with the (non-empty) suffix and, with [isAYA],
    the suffix is preceded by "а" or "я". *)
Definition hits (isAYA : bool) (word suffix : gostring) : Prop :=
  suffix <> [] /\ ends_with word suffix
  /\ (isAYA = true ->
      ends_with word (lit "а" ++ suffix) \/ ends_with word (lit "я" ++ suffix)).

(** [s] is the first entry of [suffixes], in list order, that hits, and
    [t] is the word without it. *)
Definition first_hit (isAYA : bool) (word : gostring)
  (suffixes : list gostring) (t s : gostring) : Prop :=
  exists pre post,
    suffixes = pre ++ s :: post
    /\ Forall (fun p => ~ hits isAYA word p) pre
    /\ hits isAYA word s
    /\ word = t ++ s.

(** No entry of [suffixes] hits. *)
Definition no_hit (isAYA : bool) (word : gostring)
  (suffixes : list gostring) : Prop :=
  Forall (fun p => ~ hits isAYA word p) suffixes.

(** The clamped region of a call, as a number of runes. *)
Definition clamp (region : Z) (w : list rune) : nat :=
  Z.to_nat (Z.min region (len w)).

(** What a call does to the stemmer: [RV] and [R2] are kept; on [true] one
    non-empty entry [s] of the packs was cut from the end of the tail, on
    [false] nothing changed. *)
Definition stripped (region : Z) (packs : list (list gostring))
  (st : RuStemmer) (b : bool) (st' : RuStemmer) : Prop :=
  RV st' = RV st /\ R2 st' = R2 st /\
  if b then
    exists t s,
      In s (concat packs) /\ s <> []
      /\ string_of_runes (skipn (clamp region (word st)) (word st)) = t ++ s
      /\ word st'
         = runes_of_string
             (string_of_runes (firstn (clamp region (word st)) (word st)) ++ t)
  else st' = st.

(** The first byte of [s], if any, is not a continuation byte. *)
Definition rune_aligned (s : gostring) : bool :=
  match s with
  | [] => true
  | b :: _ => negb (is_cont b)
  end.

(** Every suffix of the packs starts at a rune boundary. *)
Definition aligned_packs (packs : list (list gostring)) : bool :=
  forallb rune_aligned (concat packs).

(** *** Runs of the monad and the invariant of a stemming run *)

(** [m] run from [st] does not panic and ends in a state where [Q] holds. *)
Definition wp {A} (m : M A) (Q : A -> RuStemmer -> Prop) (st : RuStemmer)
  : Prop :=
  match m st with
  | Ok a st' => Q a st'
  | Panic _ => False
  end.

(** While [GetWordBase] stems a word whose runes are [w0]: the regions are
    non-negative, the word holds scalar values only, and it is an initial
    segment of [w0]. *)
Definition stem_inv (w0 : list rune) (st : RuStemmer) : Prop :=
  0 <= RV st /\ 0 <= R2 st /\ Forall valid_rune (word st)
  /\ exists rest, w0 = word st ++ rest.

(** *** Step 1, as the specification words it *)

(** The group of endings whose removal succeeded in Step 1. *)
Inductive Step1_branch :=
| GerundBranch
| AdjectivalBranch
| VerbBranch
| NounBranch
| NoBranch.

(** One removal attempt at [RV] from state [st]. *)
Definition attempt (packs : list (list gostring)) (st : RuStemmer)
  (matched : bool) (st' : RuStemmer) : Prop :=
  removeEndings (RV st) packs st = Ok matched st'.

(** Step 1 of the specification: the gerund attempt ends the step when it
    succeeds; otherwise the reflexive attempt is made and its outcome [r]
    is not looked at, then participle, adjective, verb and noun are
    attempted in that order, each only when everything before it failed,
    and the step ends at the first success. *)
Inductive Step1_spec (st : RuStemmer) : Step1_branch -> RuStemmer -> Prop :=
| Step1_gerund st1 :
    attempt suffixPerfectiveGerunds st true st1 ->
    Step1_spec st GerundBranch st1
| Step1_participle st1 r st2 st3 :
    attempt suffixPerfectiveGerunds st false st1 ->
    attempt [suffixReflexives] st1 r st2 ->
    attempt suffixParticiple st2 true st3 ->
    Step1_spec st AdjectivalBranch st3
| Step1_adjective st1 r st2 st3 st4 :
    attempt suffixPerfectiveGerunds st false st1 ->
    attempt [suffixReflexives] st1 r st2 ->
    attempt suffixParticiple st2 false st3 ->
    attempt [suffixAdjective] st3 true st4 ->
    Step1_spec st AdjectivalBranch st4
| Step1_verb st1 r st2 st3 st4 st5 :
    attempt suffixPerfectiveGerunds st false st1 ->
    attempt [suffixReflexives] st1 r st2 ->
    attempt suffixParticiple st2 false st3 ->
    attempt [suffixAdjective] st3 false st4 ->
    attempt suffixVerb st4 true st5 ->
    Step1_spec st VerbBranch st5
| Step1_noun st1 r st2 st3 st4 st5 st6 :
    attempt suffixPerfectiveGerunds st false st1 ->
    attempt [suffixReflexives] st1 r st2 ->
    attempt suffixParticiple st2 false st3 ->
    attempt [suffixAdjective] st3 false st4 ->
    attempt suffixVerb st4 false st5 ->
    attempt [suffixNoun] st5 true st6 ->
    Step1_spec st NounBranch st6
| Step1_nothing st1 r st2 st3 st4 st5 st6 :
    attempt suffixPerfectiveGerunds st false st1 ->
    attempt [suffixReflexives] st1 r st2 ->
    attempt suffixParticiple st2 false st3 ->
    attempt [suffixAdjective] st3 false st4 ->
    attempt suffixVerb st4 false st5 ->
    attempt [suffixNoun] st5 false st6 ->
    Step1_spec st NoBranch st6.

(** *** Vowels and the region after the first vowel *)

Definition vowel_runes : list rune := runes_of_string VOWEL.

(** Index of the first rune of [w] that [isVowel] accepts. *)
Fixpoint first_vowel (w : list rune) : option nat :=
  match w with
  | [] => None
  | c :: w' =>
    if isVowel (encode_rune c) then Some 0%nat
    else option_map S (first_vowel w')
  end.

(** The [RV] of the specification: the offset just after the first vowel
    of the word, 0 for a word without one. *)
Definition after_first_vowel (w : list rune) : Z :=
  match first_vowel w with
  | Some k => Z.of_nat k + 1
  | None => 0
  end.

(** *** Fields of a normalised text *)

(** A part of the letter table: the Russian alphabet without "ё". *)
Definition cyrillic_basic (c : rune) : bool := in_range 0x410 0x44F c.

Definition space : byte := x20.

Definition high (b : byte) : Prop := 0x80 <= byte_val b.

(** [strings.Split(s, " ")]: the fields between the spaces of [s]; [cur] is
    the field being read. *)
Fixpoint split_spaces (cur s : gostring) : list gostring :=
  match s with
  | [] => [cur]
  | b :: s' =>
    if Byte.eqb b space then cur :: split_spaces [] s'
    else split_spaces (cur ++ [b]) s'
  end.

(** *** The tables as the stemmer passes them *)

(** The packs of the eleven [removeEndings] calls of [GetWordBase]. *)
Definition package_packs : list (list (list gostring)) :=
  [ suffixPerfectiveGerunds; [suffixReflexives]; suffixParticiple;
    [suffixAdjective]; suffixVerb; [suffixNoun]; [suffixI];
    [suffixDerivational]; [suffixNN]; [suffixSuperlative]; [suffixSoftSign] ].

(** The lists that are scanned with no vowel precondition: the single
    lists, and the second list of each pair. *)
Definition ungated_tables : list (list gostring) :=
  [ suffixReflexives; suffixAdjective; suffixNoun; suffixI;
    suffixDerivational; suffixNN; suffixSuperlative; suffixSoftSign;
    nth 1 suffixPerfectiveGerunds []; nth 1 suffixParticiple [];
    nth 1 suffixVerb [] ].

(** The last rune of each suffix of the tables. *)
Definition suffix_final_runes : list rune :=
  map (fun s => last (runes_of_string s) 0) (concat (concat package_packs)).

(** No entry of the list is a proper suffix of a later entry. *)
Fixpoint no_shadow (l : list gostring) : bool :=
  match l with
  | [] => true
  | s :: rest =>
    forallb (fun p => negb (HasSuffix p s) || bytes_eqb p s) rest
    && no_shadow rest
  end.

(** The rune at index [k] of [w] is, or is not, a vowel for [isVowel]. *)
Definition vowel_at (w : list rune) (k : Z) (v : bool) : Prop :=
  0 <= k /\ exists c, nth_error w (Z.to_nat k) = Some c
                      /\ isVowel (encode_rune c) = v.

(** What [findRegions] guarantees about the two regions of the word [w]:
    [RV], when set, is just after a vowel; [R2], when set, is just after a
    vowel followed by a non-vowel and at least three runes beyond [RV]. *)
Definition regions_ok (w : list rune) (st : RuStemmer) : Prop :=
  word st = w
  /\ 0 <= RV st <= len w
  /\ (RV st = 0 -> R2 st = 0)
  /\ (RV st <> 0 -> 2 <= RV st /\ vowel_at w (RV st - 1) true)
  /\ (R2 st <> 0 ->
      RV st + 3 <= R2 st <= len w
      /\ vowel_at w (R2 st - 2) true /\ vowel_at w (R2 st - 1) false).

(** The invariant of the loop of [findRegions] before the iteration at
    index [i]. *)
Definition regions_loop_inv (w : list rune) (i state : Z) (st : RuStemmer)
  : Prop :=
  word st = w /\ R2 st = 0
  /\ ((state = 0 /\ RV st = 0)
      \/ (state = 1 /\ 2 <= RV st <= i /\ vowel_at w (RV st - 1) true)
      \/ (state = 2 /\ 2 <= RV st <= i - 1 /\ vowel_at w (RV st - 1) true
          /\ (vowel_at w (i - 1) true -> RV st + 2 <= i))).

(** * Properties *)

(** ** Bytes *)

Lemma byte_val_range (b : byte) : 0 <= byte_val b < 256.
Proof.
  unfold byte_val. pose proof (Byte.to_N_bounded b). lia.
Qed.

Lemma byte_val_mk_byte (z : Z) : 0 <= z < 256 -> byte_val (mk_byte z) = z.
Proof.
  intros Hz. unfold byte_val, mk_byte.
  destruct (Byte.of_N (Z.to_N z)) as [b|] eqn:E.
  - apply Byte.to_of_N in E. rewrite E. lia.
  - apply Byte.of_N_None_iff in E. lia.
Qed.

Lemma byte_val_inj (a b : byte) : byte_val a = byte_val b -> a = b.
Proof.
  unfold byte_val. intros H.
  assert (E : Byte.to_N a = Byte.to_N b) by lia.
  pose proof (Byte.of_to_N a) as Ha. pose proof (Byte.of_to_N b) as Hb.
  rewrite E in Ha. congruence.
Qed.

Lemma bytes_eqb_eq (a b : gostring) : bytes_eqb a b = true <-> a = b.
Proof.
  revert b. induction a as [|x a IH]; intros [|y b]; simpl; split; intros H;
    try reflexivity; try discriminate.
  - apply andb_true_iff in H. destruct H as [H1 H2].
    apply Byte.byte_dec_bl in H1. apply IH in H2. congruence.
  - injection H as -> ->. apply andb_true_iff. split.
    + apply Byte.byte_dec_lb. reflexivity.
    + apply IH. reflexivity.
Qed.

Lemma bytes_eqb_refl (a : gostring) : bytes_eqb a a = true.
Proof. apply bytes_eqb_eq. reflexivity. Qed.

Lemma bytes_eqb_neq (a b : gostring) : bytes_eqb a b = false <-> a <> b.
Proof.
  split.
  - intros H E. apply bytes_eqb_eq in E. congruence.
  - intros H. destruct (bytes_eqb a b) eqn:E; [|reflexivity].
    apply bytes_eqb_eq in E. contradiction.
Qed.

(** ** The UTF-8 codec *)

Ltac zbool :=
  repeat match goal with
  | |- context [?a <? ?b] => destruct (Z.ltb_spec a b); try lia
  | |- context [?a <=? ?b] => destruct (Z.leb_spec a b); try lia
  | |- context [?a =? ?b] => destruct (Z.eqb_spec a b); try lia
  end.

(** [lia] after the quotients and remainders by constants are named. *)
Ltac dlia := Z.div_mod_to_equations; lia.

Ltac unbyte :=
  repeat (rewrite byte_val_mk_byte by dlia).

Ltac decode_step :=
  unfold decode_rune, lead_info, is_cont, in_range; zbool;
  cbn [negb andb orb Nat.leb]; zbool; cbn [negb andb orb Nat.leb].

Lemma decode_rune_1 (b0 : byte) (s : gostring) :
  byte_val b0 < 0x80 -> decode_rune (b0 :: s) = (byte_val b0, 1%nat).
Proof. intros H. decode_step. reflexivity. Qed.

Lemma decode_rune_2 (b0 b1 : byte) (s : gostring) :
  0xC2 <= byte_val b0 <= 0xDF ->
  0x80 <= byte_val b1 <= 0xBF ->
  decode_rune (b0 :: b1 :: s)
  = ((byte_val b0 - 0xC0) * 64 + (byte_val b1 - 0x80), 2%nat).
Proof. intros H0 H1. decode_step. reflexivity. Qed.

Lemma decode_rune_3 (b0 b1 b2 : byte) (s : gostring) :
  0xE0 <= byte_val b0 <= 0xEF ->
  0x80 <= byte_val b1 <= 0xBF ->
  (byte_val b0 = 0xE0 -> 0xA0 <= byte_val b1) ->
  (byte_val b0 = 0xED -> byte_val b1 <= 0x9F) ->
  0x80 <= byte_val b2 <= 0xBF ->
  decode_rune (b0 :: b1 :: b2 :: s)
  = ((byte_val b0 - 0xE0) * 4096 + (byte_val b1 - 0x80) * 64
     + (byte_val b2 - 0x80), 3%nat).
Proof. intros H0 H1 Hlo Hhi H2. decode_step; reflexivity. Qed.

Lemma decode_rune_4 (b0 b1 b2 b3 : byte) (s : gostring) :
  0xF0 <= byte_val b0 <= 0xF4 ->
  0x80 <= byte_val b1 <= 0xBF ->
  (byte_val b0 = 0xF0 -> 0x90 <= byte_val b1) ->
  (byte_val b0 = 0xF4 -> byte_val b1 <= 0x8F) ->
  0x80 <= byte_val b2 <= 0xBF ->
  0x80 <= byte_val b3 <= 0xBF ->
  decode_rune (b0 :: b1 :: b2 :: b3 :: s)
  = ((byte_val b0 - 0xF0) * 262144 + (byte_val b1 - 0x80) * 4096
     + (byte_val b2 - 0x80) * 64 + (byte_val b3 - 0x80), 4%nat).
Proof. intros H0 H1 Hlo Hhi H2 H3. decode_step; reflexivity. Qed.

Lemma decode_rune_encode (r : rune) (bs : gostring) :
  valid_rune r ->
  decode_rune (encode_rune r ++ bs) = (r, length (encode_rune r)).
Proof.
  intros Hv. unfold valid_rune in Hv. unfold encode_rune, encode3.
  destruct (Z.ltb_spec r 0); [lia|].
  destruct (Z.leb_spec r 0x7F).
  { cbn [app length]. rewrite decode_rune_1; unbyte; [reflexivity | dlia]. }
  destruct (Z.leb_spec r 0x7FF).
  { cbn [app length]. rewrite decode_rune_2; unbyte; try dlia.
    f_equal. dlia. }
  assert (E : (0x10FFFF <? r) || ((0xD800 <=? r) && (r <=? 0xDFFF)) = false).
  { zbool; reflexivity. }
  rewrite E. clear E.
  destruct (Z.leb_spec r 0xFFFF).
  { cbn [app length]. rewrite decode_rune_3; unbyte; try dlia.
    f_equal. dlia. }
  cbn [app length]. rewrite decode_rune_4; unbyte; try dlia.
  f_equal. dlia.
Qed.

Lemma decode_from_skip (l bs : gostring) :
  decode_from (length l) (l ++ bs) = decode_from 0 bs.
Proof.
  induction l as [|b l IH]; [reflexivity|]. cbn [length app decode_from].
  exact IH.
Qed.

Lemma encode_rune_shape (r : rune) :
  exists b0 tl, encode_rune r = b0 :: tl
                /\ is_cont b0 = false /\ forallb is_cont tl = true.
Proof.
  unfold encode_rune, encode3, RuneError.
  destruct (Z.ltb_spec r 0).
  { do 2 eexists. split; [reflexivity|]. split; reflexivity. }
  destruct (Z.leb_spec r 0x7F).
  { do 2 eexists. split; [reflexivity|]. split; [|reflexivity].
    unfold is_cont, in_range. unbyte. zbool; reflexivity. }
  destruct (Z.leb_spec r 0x7FF).
  { do 2 eexists. split; [reflexivity|]. cbn [forallb].
    unfold is_cont, in_range. unbyte. split; zbool; try reflexivity; dlia. }
  destruct ((0x10FFFF <? r) || ((0xD800 <=? r) && (r <=? 0xDFFF))) eqn:E.
  { do 2 eexists. split; [reflexivity|]. split; reflexivity. }
  apply orb_false_iff in E. destruct E as [E _]. apply Z.ltb_ge in E.
  destruct (Z.leb_spec r 0xFFFF).
  { do 2 eexists. split; [reflexivity|]. cbn [forallb].
    unfold is_cont, in_range. unbyte. split; zbool; try reflexivity; dlia. }
  do 2 eexists. split; [reflexivity|]. cbn [forallb].
  unfold is_cont, in_range. unbyte. split; zbool; try reflexivity; dlia.
Qed.

Lemma decode_from_encode_rune (r : rune) (bs : gostring) :
  valid_rune r ->
  decode_from 0 (encode_rune r ++ bs) = r :: decode_from 0 bs.
Proof.
  intros Hv. pose proof (decode_rune_encode r bs Hv) as Hd.
  destruct (encode_rune_shape r) as (b0 & tl & E & _ & _).
  rewrite E in *. cbn [app decode_from] in *. rewrite Hd.
  cbn [length Nat.sub]. rewrite Nat.sub_0_r. f_equal.
  apply decode_from_skip.
Qed.

(** [[]rune(string(rs) + s)] starts with [rs] itself. *)
Lemma runes_of_string_app (rs : list rune) (bs : gostring) :
  Forall valid_rune rs ->
  runes_of_string (string_of_runes rs ++ bs) = rs ++ runes_of_string bs.
Proof.
  unfold runes_of_string, string_of_runes.
  induction 1 as [|r rs Hr _ IH]; [reflexivity|].
  cbn [flat_map]. rewrite <- app_assoc, decode_from_encode_rune by assumption.
  rewrite IH. reflexivity.
Qed.

Lemma runes_of_string_of_runes (rs : list rune) :
  Forall valid_rune rs -> runes_of_string (string_of_runes rs) = rs.
Proof.
  intros H. pose proof (runes_of_string_app rs [] H) as E.
  rewrite !app_nil_r in E. exact E.
Qed.

Lemma string_of_runes_app (a b : list rune) :
  string_of_runes (a ++ b) = string_of_runes a ++ string_of_runes b.
Proof. apply flat_map_app. Qed.

Lemma valid_RuneError : valid_rune RuneError.
Proof. unfold valid_rune, RuneError. lia. Qed.

Lemma decode_rune_valid (s : gostring) : valid_rune (fst (decode_rune s)).
Proof.
  destruct s as [|b0 s]; [apply valid_RuneError|].
  pose proof (byte_val_range b0).
  unfold decode_rune, lead_info. zbool; cbv beta iota zeta;
    try apply valid_RuneError;
    try (cbn [fst]; unfold valid_rune; lia).
  all: destruct s as [|b1 s]; [apply valid_RuneError|];
    pose proof (byte_val_range b1); unfold in_range; zbool;
    cbn [negb andb orb Nat.leb fst]; try apply valid_RuneError;
    try (unfold valid_rune; lia).
  all: destruct s as [|b2 s]; [apply valid_RuneError|];
    pose proof (byte_val_range b2); unfold is_cont, in_range; zbool;
    cbn [negb andb orb Nat.leb fst]; try apply valid_RuneError;
    try (unfold valid_rune; lia).
  all: destruct s as [|b3 s]; [apply valid_RuneError|];
    pose proof (byte_val_range b3); zbool;
    cbn [negb andb orb Nat.leb fst]; try apply valid_RuneError;
    try (unfold valid_rune; lia).
Qed.

Lemma decode_from_valid (k : nat) (s : gostring) :
  Forall valid_rune (decode_from k s).
Proof.
  revert k. induction s as [|b s IH]; intros k; [constructor|].
  cbn [decode_from]. destruct k as [|k]; [|apply IH].
  pose proof (decode_rune_valid (b :: s)) as Hv.
  destruct (decode_rune (b :: s)) as [r n]. constructor; [exact Hv|apply IH].
Qed.

Lemma runes_of_string_valid (s : gostring) :
  Forall valid_rune (runes_of_string s).
Proof. apply decode_from_valid. Qed.

(** ** Suffix tests of package [strings] *)

Lemma HasSuffix_ends_with (s suffix : gostring) :
  HasSuffix s suffix = true <-> ends_with s suffix.
Proof.
  unfold HasSuffix, ends_with. split.
  - intros H. apply andb_true_iff in H. destruct H as [Hl He].
    apply Nat.leb_le in Hl. apply bytes_eqb_eq in He.
    exists (firstn (length s - length suffix) s).
    rewrite <- (firstn_skipn (length s - length suffix) s) at 1.
    f_equal. exact He.
  - intros [t ->]. rewrite length_app. apply andb_true_iff. split.
    + apply Nat.leb_le. lia.
    + replace (length t + length suffix - length suffix)%nat
        with (length t + 0)%nat by lia.
      rewrite skipn_app, Nat.add_0_r, skipn_all.
      replace (length t - length t)%nat with 0%nat by lia.
      apply bytes_eqb_refl.
Qed.

Lemma HasSuffix_false (s suffix : gostring) :
  HasSuffix s suffix = false <-> ~ ends_with s suffix.
Proof.
  rewrite <- HasSuffix_ends_with. destruct (HasSuffix s suffix); split;
    congruence.
Qed.

Lemma TrimSuffix_app (t suffix : gostring) :
  TrimSuffix (t ++ suffix) suffix = t.
Proof.
  unfold TrimSuffix.
  assert (H : HasSuffix (t ++ suffix) suffix = true).
  { apply HasSuffix_ends_with. exists t. reflexivity. }
  rewrite H, length_app.
  replace (length t + length suffix - length suffix)%nat
    with (length t + 0)%nat by lia.
  rewrite firstn_app_2. cbn [firstn]. apply app_nil_r.
Qed.

Lemma TrimSuffix_miss (s suffix : gostring) :
  ~ ends_with s suffix -> TrimSuffix s suffix = s.
Proof.
  intros H. apply HasSuffix_false in H. unfold TrimSuffix. rewrite H.
  reflexivity.
Qed.

(** [TrimSuffix] changes the string exactly when a non-empty suffix is
    cut. *)
Lemma TrimSuffix_changes (s suffix : gostring) :
  bytes_eqb (TrimSuffix s suffix) s = false
  <-> suffix <> [] /\ ends_with s suffix.
Proof.
  rewrite bytes_eqb_neq. split.
  - intros Hne. destruct (HasSuffix s suffix) eqn:E.
    + split; [|apply HasSuffix_ends_with; exact E].
      intros ->. apply Hne. unfold TrimSuffix. rewrite E. cbn [length].
      rewrite Nat.sub_0_r. apply firstn_all.
    + exfalso. apply Hne. unfold TrimSuffix. rewrite E. reflexivity.
  - intros [Hne [t ->]]. rewrite TrimSuffix_app. intros E.
    apply (f_equal (@length byte)) in E. rewrite length_app in E.
    destruct suffix; [congruence|]. cbn [length] in E. lia.
Qed.

(** ** [trimFirstSuffix]: the first entry, in list order, that hits *)

Lemma trimFirstSuffix_step (word suffix : gostring) (rest : list gostring)
  (isAYA : bool) :
  (hits isAYA word suffix
   /\ forall t, word = t ++ suffix ->
        trimFirstSuffix word (suffix :: rest) isAYA = t)
  \/ (~ hits isAYA word suffix
      /\ trimFirstSuffix word (suffix :: rest) isAYA
         = trimFirstSuffix word rest isAYA).
Proof.
  cbn [trimFirstSuffix].
  destruct (isAYA && negb (HasSuffix word (lit "а" ++ suffix)
                           || HasSuffix word (lit "я" ++ suffix))) eqn:Ea.
  - right. split; [|reflexivity].
    apply andb_true_iff in Ea. destruct Ea as [-> Ea].
    apply negb_true_iff, orb_false_iff in Ea. destruct Ea as [E1 E2].
    apply HasSuffix_false in E1, E2.
    intros (_ & _ & H). destruct (H eq_refl); contradiction.
  - destruct (bytes_eqb (TrimSuffix word suffix) word) eqn:Et; cbn [negb].
    + right. split; [|reflexivity]. intros (Hne & He & _).
      assert (bytes_eqb (TrimSuffix word suffix) word = false)
        by (apply TrimSuffix_changes; split; assumption).
      congruence.
    + left. apply TrimSuffix_changes in Et. destruct Et as [Hne He].
      split.
      * split; [exact Hne|]. split; [exact He|]. intros ->.
        cbn [andb] in Ea. apply negb_false_iff, orb_true_iff in Ea.
        destruct Ea as [E|E]; apply HasSuffix_ends_with in E; auto.
      * intros t ->. apply TrimSuffix_app.
Qed.

(** A hit at [s] after the misses [pre]: exactly [s] is cut, whatever
    follows in the list. *)
Lemma trimFirstSuffix_hit (word t s : gostring) (pre post : list gostring)
  (isAYA : bool) :
  Forall (fun p => ~ hits isAYA word p) pre ->
  hits isAYA word s ->
  word = t ++ s ->
  trimFirstSuffix word (pre ++ s :: post) isAYA = t.
Proof.
  intros Hpre Hs Hw. induction Hpre as [|p pre Hp _ IH].
  - destruct (trimFirstSuffix_step word s post isAYA) as [[_ H]|[H _]].
    + apply H. exact Hw.
    + contradiction.
  - cbn [app].
    destruct (trimFirstSuffix_step word p (pre ++ s :: post) isAYA)
      as [[H _]|[_ H]].
    + contradiction.
    + rewrite H. exact IH.
Qed.

Lemma trimFirstSuffix_miss (word : gostring) (suffixes : list gostring)
  (isAYA : bool) :
  Forall (fun p => ~ hits isAYA word p) suffixes ->
  trimFirstSuffix word suffixes isAYA = word.
Proof.
  induction 1 as [|p ps Hp _ IH]; [reflexivity|].
  destruct (trimFirstSuffix_step word p ps isAYA) as [[H _]|[_ H]].
  - contradiction.
  - rewrite H. exact IH.
Qed.

(** Every run of [trimFirstSuffix] is one of the two. *)
Lemma trimFirstSuffix_cases (word : gostring) (suffixes : list gostring)
  (isAYA : bool) :
  (exists pre s post t,
      suffixes = pre ++ s :: post
      /\ Forall (fun p => ~ hits isAYA word p) pre
      /\ hits isAYA word s /\ word = t ++ s
      /\ trimFirstSuffix word suffixes isAYA = t)
  \/ (Forall (fun p => ~ hits isAYA word p) suffixes
      /\ trimFirstSuffix word suffixes isAYA = word).
Proof.
  induction suffixes as [|p ps IH].
  - right. split; [constructor|reflexivity].
  - destruct (trimFirstSuffix_step word p ps isAYA) as [[Hh Ht]|[Hm Ht]].
    + left. pose proof Hh as (_ & [t Hw] & _).
      exists [], p, ps, t. cbn [app].
      split; [reflexivity|]. split; [constructor|].
      split; [exact Hh|]. split; [exact Hw|apply Ht; exact Hw].
    + rewrite Ht. destruct IH as [(pre & s & post & t & -> & Hp & Hs & Hw & E)
                                 |[Hall E]].
      * left. exists (p :: pre), s, post, t.
        split; [reflexivity|]. split; [constructor; assumption|].
        split; [exact Hs|]. split; [exact Hw|exact E].
      * right. split; [constructor; assumption|exact E].
Qed.

(** The result differs from the word exactly when some entry hit. *)
Lemma hit_changes (t s : gostring) : s <> [] -> t <> t ++ s.
Proof.
  intros Hne E. apply (f_equal (@length byte)) in E.
  rewrite length_app in E. destruct s; [congruence|]. cbn [length] in E. lia.
Qed.

(** ** [removeEndings] *)

Lemma slice_to_ok {A} (a : list A) (hi : Z) (r : RuStemmer) :
  0 <= hi <= len a -> slice_to a hi r = Ok (firstn (Z.to_nat hi) a) r.
Proof.
  intros H. unfold slice_to.
  destruct (Z.ltb_spec hi 0); [lia|]. destruct (Z.ltb_spec (len a) hi); [lia|].
  reflexivity.
Qed.

Lemma slice_from_ok {A} (a : list A) (lo : Z) (r : RuStemmer) :
  0 <= lo <= len a -> slice_from a lo r = Ok (skipn (Z.to_nat lo) a) r.
Proof.
  intros H. unfold slice_from.
  destruct (Z.ltb_spec lo 0); [lia|]. destruct (Z.ltb_spec (len a) lo); [lia|].
  reflexivity.
Qed.

Lemma index_ok {A} (a : list A) (i : Z) (x : A) (r : RuStemmer) :
  0 <= i -> nth_error a (Z.to_nat i) = Some x -> index a i r = Ok x r.
Proof.
  intros Hi Hn. unfold index.
  assert (Hl : (Z.to_nat i < length a)%nat)
    by (apply nth_error_Some; congruence).
  destruct (Z.ltb_spec i 0); [lia|].
  destruct (Z.leb_spec (len a) i); [unfold len in *; lia|].
  cbn [orb]. rewrite Hn. reflexivity.
Qed.

Lemma len_firstn_clamp (region : Z) (w : list rune) :
  0 <= region ->
  len (firstn (clamp region w) w) = Z.min region (len w).
Proof.
  intros H. unfold len, clamp. rewrite length_firstn. unfold len. lia.
Qed.

Lemma removeEndings_eq (region : Z) (p0 : list gostring)
  (ps : list (list gostring)) (st : RuStemmer) :
  0 <= region ->
  removeEndings region (p0 :: ps) st =
  let n := clamp region (word st) in
  let prefix := firstn n (word st) in
  let word_ := string_of_runes (skipn n (word st)) in
  match ps with
  | [p1] =>
    if negb (bytes_eqb (trimFirstSuffix word_ p0 true) word_) then
      Ok true (mkRuStemmer
                 (runes_of_string
                    (string_of_runes prefix ++ trimFirstSuffix word_ p0 true))
                 (RV st) (R2 st))
    else removeEndings_plain prefix word_ p1 st
  | _ => removeEndings_plain prefix word_ p0 st
  end.
Proof.
  intros Hr. cbv zeta. unfold removeEndings, bind at 1, get_word.
  set (w := word st).
  assert (E : (if len w <? region then len w else region)
              = Z.min region (len w)).
  { destruct (Z.ltb_spec (len w) region); lia. }
  rewrite E. clear E.
  assert (Hm : 0 <= Z.min region (len w) <= len w) by (unfold len; lia).
  unfold bind at 1. rewrite slice_to_ok by exact Hm.
  fold (clamp region w).
  unfold bind at 1. rewrite len_firstn_clamp by exact Hr.
  rewrite slice_from_ok by exact Hm. fold (clamp region w).
  unfold bind at 1. rewrite (index_ok (p0 :: ps) 0 p0) by (reflexivity || lia).
  destruct ps as [|p1 [|p2 ps]].
  - reflexivity.
  - change (len [p0; p1] =? 2) with true. cbv iota.
    destruct (negb (bytes_eqb _ _)); [reflexivity|].
    unfold bind. rewrite (index_ok [p0; p1] 1 p1) by (reflexivity || lia).
    reflexivity.
  - assert (E : (len (p0 :: p1 :: p2 :: ps) =? 2) = false).
    { apply Z.eqb_neq. unfold len. cbn [length]. lia. }
    rewrite E. reflexivity.
Qed.

Lemma removeEndings_plain_stripped (region : Z) (packs : list (list gostring))
  (suffixes : list gostring) (st : RuStemmer) :
  incl suffixes (concat packs) ->
  exists b st',
    removeEndings_plain (firstn (clamp region (word st)) (word st))
      (string_of_runes (skipn (clamp region (word st)) (word st)))
      suffixes st = Ok b st'
    /\ stripped region packs st b st'.
Proof.
  intros Hin. unfold removeEndings_plain.
  set (word_ := string_of_runes _).
  destruct (trimFirstSuffix_cases word_ suffixes false)
    as [(pre & s & post & t & -> & _ & (Hne & _) & Hw & E)|[_ E]];
    rewrite E.
  - assert (Hb : bytes_eqb t word_ = false).
    { apply bytes_eqb_neq. rewrite Hw. apply hit_changes. exact Hne. }
    rewrite Hb. cbn [negb]. do 2 eexists. split; [reflexivity|].
    split; [reflexivity|]. split; [reflexivity|].
    exists t, s. split; [apply Hin, in_elt|]. split; [exact Hne|].
    split; [exact Hw|reflexivity].
  - rewrite bytes_eqb_refl. cbn [negb]. do 2 eexists. split; [reflexivity|].
    split; [reflexivity|]. split; reflexivity.
Qed.

(** A call with a non-negative region and at least one pack never panics. *)
Lemma removeEndings_stripped (region : Z) (packs : list (list gostring))
  (st : RuStemmer) :
  0 <= region -> packs <> [] ->
  exists b st',
    removeEndings region packs st = Ok b st' /\ stripped region packs st b st'.
Proof.
  intros Hr Hp. destruct packs as [|p0 ps]; [congruence|].
  rewrite removeEndings_eq by exact Hr. cbv zeta.
  assert (H0 : incl p0 (concat (p0 :: ps))).
  { cbn [concat]. apply incl_appl, incl_refl. }
  destruct ps as [|p1 [|p2 ps]];
    try (apply removeEndings_plain_stripped; exact H0).
  set (word_ := string_of_runes _).
  destruct (trimFirstSuffix_cases word_ p0 true)
    as [(pre & s & post & t & -> & _ & (Hne & _) & Hw & E)|[_ E]];
    rewrite E.
  - assert (Hb : bytes_eqb t word_ = false).
    { apply bytes_eqb_neq. rewrite Hw. apply hit_changes. exact Hne. }
    rewrite Hb. cbn [negb]. do 2 eexists. split; [reflexivity|].
    split; [reflexivity|]. split; [reflexivity|].
    exists t, s. split; [apply H0, in_elt|]. split; [exact Hne|].
    split; [exact Hw|reflexivity].
  - rewrite bytes_eqb_refl. cbn [negb].
    apply removeEndings_plain_stripped.
    cbn [concat]. apply incl_appr, incl_appl, incl_refl.
Qed.

(** The slice expression of [removeEndings] does panic on a negative
    region, and the index expression on a call without packs; the stemmer
    itself never makes such a call. *)
Example removeEndings_negative_region :
  removeEndings (-1) [suffixI] New = Panic SliceBoundsOutOfRange.
Proof. reflexivity. Qed.

Example removeEndings_no_packs :
  removeEndings 0 [] New = Panic IndexOutOfRange.
Proof. reflexivity. Qed.

(** ** Suffixes that start at a rune boundary are cut at a rune boundary *)

Lemma cont_prefix_split (c rest t s : gostring) (b : byte) :
  forallb is_cont c = true -> is_cont b = false ->
  c ++ rest = t ++ b :: s ->
  exists t', t = c ++ t' /\ rest = t' ++ b :: s.
Proof.
  revert t. induction c as [|x c IH]; intros t Hc Hb E.
  - exists t. split; [reflexivity|exact E].
  - cbn [forallb] in Hc. apply andb_true_iff in Hc. destruct Hc as [Hx Hc].
    destruct t as [|y t]; cbn [app] in E; injection E as -> E.
    + congruence.
    + destruct (IH t Hc Hb E) as (t' & -> & Hrest).
      exists t'. split; [reflexivity|exact Hrest].
Qed.

Lemma encoded_split (w : list rune) (t s : gostring) (b : byte) :
  is_cont b = false ->
  string_of_runes w = t ++ b :: s ->
  exists w1 w2,
    w = w1 ++ w2 /\ t = string_of_runes w1 /\ b :: s = string_of_runes w2.
Proof.
  intros Hb. revert t. induction w as [|r w IH]; intros t E.
  - destruct t; discriminate.
  - change (string_of_runes (r :: w))
      with (encode_rune r ++ string_of_runes w) in *.
    destruct (encode_rune_shape r) as (b0 & tl & Er & Hb0 & Htl).
    destruct t as [|y t].
    + exists [], (r :: w). split; [reflexivity|]. split; [reflexivity|].
      symmetry. exact E.
    + rewrite Er in E. cbn [app] in E. injection E as <- E.
      destruct (cont_prefix_split _ _ _ _ _ Htl Hb E) as (t' & -> & Hrest).
      destruct (IH _ Hrest) as (w1 & w2 & -> & -> & Hs).
      exists (r :: w1), w2. split; [reflexivity|]. split; [|exact Hs].
      change (string_of_runes (r :: w1))
        with (encode_rune r ++ string_of_runes w1).
      rewrite Er. reflexivity.
Qed.

Lemma Forall_firstn {A} (P : A -> Prop) (n : nat) (l : list A) :
  Forall P l -> Forall P (firstn n l).
Proof.
  intros H. rewrite <- (firstn_skipn n l) in H.
  apply Forall_app in H. tauto.
Qed.

Lemma Forall_skipn {A} (P : A -> Prop) (n : nat) (l : list A) :
  Forall P l -> Forall P (skipn n l).
Proof.
  intros H. rewrite <- (firstn_skipn n l) in H.
  apply Forall_app in H. tauto.
Qed.

Lemma clamp_le (region : Z) (w : list rune) :
  (clamp region w <= length w)%nat.
Proof. unfold clamp, len. lia. Qed.

(** On a successful call the runes before the clamped region are the same
    runes afterwards, whatever the bytes of the suffix were. *)
Lemma stripped_frame (region : Z) (packs : list (list gostring))
  (st st' : RuStemmer) (b : bool) :
  Forall valid_rune (word st) ->
  stripped region packs st b st' ->
  firstn (clamp region (word st)) (word st')
  = firstn (clamp region (word st)) (word st).
Proof.
  intros Hv (_ & _ & H). destruct b; [|subst; reflexivity].
  destruct H as (t & s & _ & _ & _ & ->).
  rewrite runes_of_string_app by (apply Forall_firstn; exact Hv).
  pose proof (clamp_le region (word st)) as Hle.
  set (n := clamp region (word st)) in *.
  rewrite firstn_app, length_firstn, firstn_firstn.
  replace (Nat.min n n) with n by lia.
  replace (n - Nat.min n (length (word st)))%nat with 0%nat by lia.
  cbn [firstn]. apply app_nil_r.
Qed.

(** With rune-aligned suffixes the new word is the old one without the
    runes of the suffix that was cut. *)
Lemma stripped_runes (region : Z) (packs : list (list gostring))
  (st st' : RuStemmer) :
  Forall valid_rune (word st) ->
  Forall (fun s => rune_aligned s = true) (concat packs) ->
  stripped region packs st true st' ->
  exists w2,
    word st = word st' ++ w2 /\ w2 <> []
    /\ In (string_of_runes w2) (concat packs)
    /\ (clamp region (word st) <= length (word st'))%nat.
Proof.
  intros Hv Hal (_ & _ & t & s & Hin & Hne & Htail & Hw).
  assert (Hs : rune_aligned s = true)
    by (rewrite Forall_forall in Hal; apply Hal; exact Hin).
  destruct s as [|b s]; [congruence|]. cbn [rune_aligned] in Hs.
  apply negb_true_iff in Hs.
  destruct (encoded_split _ _ _ _ Hs Htail) as (w1 & w2 & Hsplit & -> & Es).
  set (n := clamp region (word st)) in *.
  rewrite <- string_of_runes_app in Hw.
  assert (Hv1 : Forall valid_rune (firstn n (word st) ++ w1)).
  { apply Forall_app. split; [apply Forall_firstn; exact Hv|].
    pose proof (Forall_skipn _ n _ Hv) as H. rewrite Hsplit in H.
    apply Forall_app in H. tauto. }
  rewrite runes_of_string_of_runes in Hw by exact Hv1.
  exists w2. split.
  - rewrite Hw, <- app_assoc, <- Hsplit. symmetry. apply firstn_skipn.
  - split.
    + intros ->. discriminate.
    + split; [rewrite <- Es; exact Hin|].
      rewrite Hw, length_app, length_firstn.
      pose proof (clamp_le region (word st)). fold n in H. lia.
Qed.

(** ** Weakest preconditions for the stemmer monad *)

Lemma wp_ret {A} (a : A) (Q : A -> RuStemmer -> Prop) st :
  Q a st -> wp (ret a) Q st.
Proof. intros H. exact H. Qed.

Lemma wp_bind {A B} (m : M A) (f : A -> M B) (Q : B -> RuStemmer -> Prop) st :
  wp m (fun a st' => wp (f a) Q st') st -> wp (bind m f) Q st.
Proof.
  unfold wp, bind. destruct (m st) as [a st'|p]; intros H; exact H.
Qed.

Lemma wp_mono {A} (m : M A) (P Q : A -> RuStemmer -> Prop) st :
  (forall a st', P a st' -> Q a st') -> wp m P st -> wp m Q st.
Proof.
  unfold wp. intros HPQ. destruct (m st) as [a st'|p]; [apply HPQ|exact id].
Qed.

Lemma wp_Ok {A} (m : M A) (Q : A -> RuStemmer -> Prop) st :
  wp m Q st <-> exists a st', m st = Ok a st' /\ Q a st'.
Proof.
  unfold wp. destruct (m st) as [a st'|p]; split.
  - intros H. eauto.
  - intros (a' & st'' & E & H). injection E as -> ->. exact H.
  - intros [].
  - intros (a' & st'' & E & H). discriminate.
Qed.

Lemma wp_get_word (Q : list rune -> RuStemmer -> Prop) st :
  Q (word st) st -> wp get_word Q st.
Proof. intros H. exact H. Qed.

Lemma wp_get_RV (Q : Z -> RuStemmer -> Prop) st :
  Q (RV st) st -> wp get_RV Q st.
Proof. intros H. exact H. Qed.

Lemma wp_get_R2 (Q : Z -> RuStemmer -> Prop) st :
  Q (R2 st) st -> wp get_R2 Q st.
Proof. intros H. exact H. Qed.

Lemma wp_index {A} (a : list A) (i : Z) (Q : A -> RuStemmer -> Prop) st :
  0 <= i < len a ->
  (forall x, nth_error a (Z.to_nat i) = Some x -> Q x st) ->
  wp (index a i) Q st.
Proof.
  intros Hi HQ. unfold len in Hi.
  destruct (nth_error a (Z.to_nat i)) as [x|] eqn:E.
  - unfold wp. rewrite (index_ok a i x) by (lia || exact E). apply HQ.
    reflexivity.
  - apply nth_error_None in E. lia.
Qed.

Lemma wp_removeEndings (region : Z) (packs : list (list gostring))
  (Q : bool -> RuStemmer -> Prop) st :
  0 <= region -> packs <> [] ->
  (forall b st', stripped region packs st b st' -> Q b st') ->
  wp (removeEndings region packs) Q st.
Proof.
  intros Hr Hp HQ. apply wp_Ok.
  destruct (removeEndings_stripped region packs st Hr Hp) as (b & st' & E & H).
  exists b, st'. split; [exact E|apply HQ; exact H].
Qed.

(** ** [findRegions] never indexes outside the word *)

Lemma findRegions_loop_ok (n : nat) (i state : Z) (st : RuStemmer) :
  1 <= i -> ((0 < n)%nat -> i + Z.of_nat n <= len (word st)) ->
  0 <= RV st -> 0 <= R2 st ->
  wp (findRegions_loop n i state)
     (fun _ st' => word st' = word st /\ 0 <= RV st' /\ 0 <= R2 st') st.
Proof.
  revert i state st. induction n as [|n IH]; intros i state st Hi Hn Hrv Hr2.
  - apply wp_ret. auto.
  - cbn [findRegions_loop]. specialize (Hn ltac:(lia)).
    apply wp_bind, wp_get_word.
    apply wp_bind, wp_index; [lia|]. intros p _.
    apply wp_bind, wp_index; [lia|]. intros c _.
    assert (Hrec : forall state' st',
               word st' = word st -> 0 <= RV st' -> 0 <= R2 st' ->
               wp (findRegions_loop n (i + 1) state')
                  (fun _ st'' => word st'' = word st
                                 /\ 0 <= RV st'' /\ 0 <= R2 st'') st').
    { intros state' st' Hw Hrv' Hr2'.
      eapply wp_mono; [|apply IH; try assumption; try lia].
      - intros _ st'' (Hw'' & H1 & H2). rewrite Hw'', Hw. auto.
      - rewrite Hw. intros _. lia. }
    destruct (state =? 0).
    { destruct (isVowel (encode_rune c)).
      - apply wp_bind. unfold wp at 1, set_RV.
        apply Hrec; cbn [word RV R2]; auto; lia.
      - apply Hrec; auto. }
    destruct (state =? 1).
    { destruct (isVowel (encode_rune p) && negb (isVowel (encode_rune c)));
        apply Hrec; auto. }
    destruct (state =? 2).
    { destruct (isVowel (encode_rune p) && negb (isVowel (encode_rune c))).
      - apply wp_bind. unfold wp at 1, set_R2. apply wp_ret.
        cbn [word RV R2]. split; [reflexivity|]. split; lia.
      - apply Hrec; auto. }
    apply Hrec; auto.
Qed.

Lemma findRegions_ok (st : RuStemmer) :
  0 <= RV st -> 0 <= R2 st ->
  wp findRegions
     (fun _ st' => word st' = word st /\ 0 <= RV st' /\ 0 <= R2 st') st.
Proof.
  intros Hrv Hr2. unfold findRegions. apply wp_bind, wp_get_word.
  apply findRegions_loop_ok; try assumption; unfold len; lia.
Qed.

(** ** The invariant of a [GetWordBase] run *)

Lemma aligned_packs_Forall (packs : list (list gostring)) :
  aligned_packs packs = true ->
  Forall (fun s => rune_aligned s = true) (concat packs).
Proof.
  unfold aligned_packs. intros H. apply Forall_forall.
  apply forallb_forall. exact H.
Qed.

Lemma stripped_inv (w0 : list rune) (region : Z)
  (packs : list (list gostring)) (st st' : RuStemmer) (b : bool) :
  stem_inv w0 st -> aligned_packs packs = true ->
  stripped region packs st b st' -> stem_inv w0 st'.
Proof.
  intros (Hrv & Hr2 & Hv & rest & Hw0) Hal Hs.
  destruct b; [|destruct Hs as (_ & _ & ->); repeat split; eauto].
  destruct (stripped_runes region packs st st' Hv
              (aligned_packs_Forall _ Hal) Hs) as (w2 & Hw & _ & _ & _).
  destruct Hs as (Erv & Er2 & _).
  split; [lia|]. split; [lia|]. split.
  - rewrite Hw in Hv. apply Forall_app in Hv. tauto.
  - exists (w2 ++ rest). rewrite Hw0, Hw, app_assoc. reflexivity.
Qed.

Lemma wp_removeEndings_inv (w0 : list rune) (region : Z)
  (packs : list (list gostring)) (Q : bool -> RuStemmer -> Prop) st :
  stem_inv w0 st -> 0 <= region -> packs <> [] ->
  aligned_packs packs = true ->
  (forall b st', stem_inv w0 st' -> stripped region packs st b st' ->
                 Q b st') ->
  wp (removeEndings region packs) Q st.
Proof.
  intros Hinv Hr Hp Hal HQ. apply wp_removeEndings; try assumption.
  intros b st' Hs. apply HQ; [|exact Hs].
  eapply stripped_inv; eassumption.
Qed.

(** One call at [RV] or [R2] with a table of the package. *)
Ltac wp_remove H :=
  apply wp_bind;
  eapply wp_removeEndings_inv;
  [ exact H
  | first [apply H | apply (proj1 (proj2 H))]
  | discriminate
  | vm_compute; reflexivity
  | ].

Lemma Step1_inv (w0 : list rune) (st : RuStemmer) :
  stem_inv w0 st -> wp Step1 (fun _ st' => stem_inv w0 st') st.
Proof.
  intros H0. unfold Step1, orM, andM, notM.
  apply wp_bind, wp_get_RV. wp_remove H0. intros gerund st1 H1 _.
  destruct gerund; cbn [negb]; [apply wp_ret; exact H1|].
  apply wp_bind, wp_get_RV. wp_remove H1. intros _ st2 H2 _.
  apply wp_bind, wp_bind, wp_bind, wp_get_RV.
  eapply wp_removeEndings_inv;
    [exact H2|apply H2|discriminate|vm_compute; reflexivity|].
  intros part st3 H3 _.
  destruct part.
  { apply wp_ret, wp_bind, wp_bind, wp_ret. cbn [negb]. apply wp_ret, wp_ret.
    exact H3. }
  apply wp_bind, wp_get_RV.
  eapply wp_removeEndings_inv;
    [exact H3|apply H3|discriminate|vm_compute; reflexivity|].
  intros ife st4 H4 _.
  apply wp_bind, wp_bind, wp_ret.
  destruct ife; cbn [negb].
  { apply wp_ret, wp_ret. exact H4. }
  apply wp_bind, wp_bind, wp_get_RV.
  eapply wp_removeEndings_inv;
    [exact H4|apply H4|discriminate|vm_compute; reflexivity|].
  intros verb st5 H5 _. apply wp_ret.
  destruct verb; cbn [negb].
  { apply wp_ret. exact H5. }
  apply wp_bind, wp_get_RV. wp_remove H5. intros _ st6 H6 _.
  apply wp_ret. exact H6.
Qed.

Lemma Step2_inv (w0 : list rune) (st : RuStemmer) :
  stem_inv w0 st -> wp Step2 (fun _ st' => stem_inv w0 st') st.
Proof.
  intros H0. unfold Step2. apply wp_bind, wp_get_RV.
  wp_remove H0. intros _ st1 H1 _. apply wp_ret. exact H1.
Qed.

Lemma Step3_inv (w0 : list rune) (st : RuStemmer) :
  stem_inv w0 st -> wp Step3 (fun _ st' => stem_inv w0 st') st.
Proof.
  intros H0. unfold Step3. apply wp_bind, wp_get_R2.
  wp_remove H0. intros _ st1 H1 _. apply wp_ret. exact H1.
Qed.

(** The "нн" collapse: the two runes cut were "н" "н", and one "н" is put
    back, so the word is still an initial segment of the input. *)
Lemma nn_collapse_inv (w0 : list rune) (region : Z) (st st1 : RuStemmer) :
  stem_inv w0 st ->
  stripped region [suffixNN] st true st1 ->
  stem_inv w0 (mkRuStemmer
                 (runes_of_string (string_of_runes (word st1) ++ lit "н"))
                 (RV st1) (R2 st1)).
Proof.
  intros H0 Hs.
  assert (H1 : stem_inv w0 st1).
  { eapply stripped_inv; [exact H0| |exact Hs]. vm_compute. reflexivity. }
  destruct H0 as (_ & _ & Hv & rest & Hw0).
  destruct (stripped_runes region [suffixNN] st st1 Hv) as (w2 & Hw & _ & Hin & _).
  { apply aligned_packs_Forall. vm_compute. reflexivity. }
  { exact Hs. }
  destruct H1 as (Hrv & Hr2 & Hv1 & _).
  assert (E2 : w2 = [1085; 1085]).
  { cbn [concat suffixNN map app In] in Hin. destruct Hin as [Hin|[]].
    assert (Hv2 : Forall valid_rune w2).
    { rewrite Hw in Hv. apply Forall_app in Hv. tauto. }
    rewrite <- (runes_of_string_of_runes w2 Hv2), <- Hin.
    vm_compute. reflexivity. }
  subst w2.
  rewrite runes_of_string_app by exact Hv1.
  change (runes_of_string (lit "н")) with [1085].
  split; [exact Hrv|]. split; [exact Hr2|]. cbn [word]. split.
  - apply Forall_app. split; [exact Hv1|].
    repeat constructor; unfold valid_rune; lia.
  - exists (1085 :: rest). rewrite Hw0, Hw, <- !app_assoc. reflexivity.
Qed.

Lemma Step4_inv (w0 : list rune) (st : RuStemmer) :
  stem_inv w0 st -> wp Step4 (fun _ st' => stem_inv w0 st') st.
Proof.
  intros H0. unfold Step4. apply wp_bind, wp_get_RV.
  wp_remove H0. intros nn st1 H1 Hs.
  apply wp_bind.
  assert (Hnn : wp (if nn
                    then bind get_word (fun w =>
                           set_word (runes_of_string
                                       (string_of_runes w ++ lit "н")))
                    else ret tt)
                   (fun _ st' => stem_inv w0 st') st1).
  { destruct nn; [|apply wp_ret; exact H1].
    apply wp_bind, wp_get_word. unfold wp, set_word.
    eapply nn_collapse_inv; [exact H0|exact Hs]. }
  eapply wp_mono; [|exact Hnn]. cbv beta. intros _ st2 H2.
  apply wp_bind, wp_get_RV. wp_remove H2. intros _ st3 H3 _.
  apply wp_bind, wp_get_RV. wp_remove H3. intros _ st4 H4 _.
  apply wp_ret. exact H4.
Qed.

(** [GetWordBase] returns, for every string and from every state of the
    instance; its result is the encoding of a word that satisfies the
    invariant. *)
Lemma GetWordBase_run (s : gostring) (st : RuStemmer) :
  exists st',
    GetWordBase s st = Ok (string_of_runes (word st')) st'
    /\ stem_inv (runes_of_string s) st'.
Proof.
  assert (H : wp (GetWordBase s)
                 (fun out st' => out = string_of_runes (word st')
                                 /\ stem_inv (runes_of_string s) st') st).
  { unfold GetWordBase, RuStemmer_GetWordBase.
    apply wp_bind. unfold wp at 1, set_word.
    apply wp_bind. unfold wp at 1, set_RV.
    apply wp_bind. unfold wp at 1, set_R2. cbn [word RV R2].
    apply wp_bind. eapply wp_mono; [|apply findRegions_ok; cbn; lia].
    cbv beta. intros _ st1 (Hw & Hrv & Hr2). cbn [word] in Hw.
    assert (H1 : stem_inv (runes_of_string s) st1).
    { split; [exact Hrv|]. split; [exact Hr2|]. rewrite Hw. split.
      - apply runes_of_string_valid.
      - exists []. symmetry. apply app_nil_r. }
    apply wp_bind. eapply wp_mono; [|apply Step1_inv; exact H1].
    cbv beta. intros _ st2 H2.
    apply wp_bind. eapply wp_mono; [|apply Step2_inv; exact H2].
    cbv beta. intros _ st3 H3.
    apply wp_bind. eapply wp_mono; [|apply Step3_inv; exact H3].
    cbv beta. intros _ st4 H4.
    apply wp_bind. eapply wp_mono; [|apply Step4_inv; exact H4].
    cbv beta. intros _ st5 H5.
    apply wp_bind, wp_get_word, wp_ret. split; [reflexivity|exact H5]. }
  apply wp_Ok in H. destruct H as (out & st' & E & -> & Hinv).
  exists st'. split; assumption.
Qed.

(** The instance state left by earlier calls does not matter: the three
    fields are reset before anything reads them. *)
Lemma GetWordBase_instance (s : gostring) (st : RuStemmer) :
  GetWordBase s st = GetWordBase s New.
Proof. reflexivity. Qed.

(** An empty tail is left alone. *)
Lemma trimFirstSuffix_nil (suffixes : list gostring) (isAYA : bool) :
  trimFirstSuffix [] suffixes isAYA = [].
Proof.
  apply trimFirstSuffix_miss. apply Forall_forall.
  intros p _ (Hne & [t Ht] & _). destruct t; destruct p; try discriminate.
  congruence.
Qed.

Lemma removeEndings_beyond_word (region : Z) (packs : list (list gostring))
  (st : RuStemmer) :
  len (word st) <= region -> packs <> [] ->
  removeEndings region packs st = Ok false st.
Proof.
  intros Hr Hp. destruct packs as [|p0 ps]; [congruence|].
  assert (H0 : 0 <= region) by (unfold len in Hr; lia).
  rewrite removeEndings_eq by exact H0. cbv zeta.
  assert (Hc : clamp region (word st) = length (word st))
    by (unfold clamp, len in *; lia).
  rewrite Hc, skipn_all. change (string_of_runes []) with (@nil byte).
  unfold removeEndings_plain.
  destruct ps as [|p1 [|p2 ps]]; rewrite !trimFirstSuffix_nil; reflexivity.
Qed.

(** ** Step 1, as the specification words it *)

Lemma attempt_total (packs : list (list gostring)) (st : RuStemmer) :
  0 <= RV st -> packs <> [] ->
  exists b st', attempt packs st b st' /\ RV st' = RV st.
Proof.
  intros Hrv Hp.
  destruct (removeEndings_stripped (RV st) packs st Hrv Hp)
    as (b & st' & E & Hs & _).
  exists b, st'. split; [exact E|exact Hs].
Qed.

Lemma Step1_spec_functional (st : RuStemmer) (br br' : Step1_branch)
  (st1 st1' : RuStemmer) :
  Step1_spec st br st1 -> Step1_spec st br' st1' -> br = br' /\ st1 = st1'.
Proof.
  unfold attempt.
  intros H H'; inversion H; inversion H'; subst; split; congruence.
Qed.

(** ** Text normalisation *)

(** The matcher consults the letter table only at the runes of the text. *)
Lemma find_words_ext (L1 L2 : rune -> bool) (s : gostring) :
  forall skip inword cur,
    (forall c, In c (decode_from skip s) -> word_char L1 c = word_char L2 c) ->
    find_words L1 skip inword cur s = find_words L2 skip inword cur s.
Proof.
  induction s as [|b s IH]; intros skip inword cur H; [reflexivity|].
  cbn [find_words decode_from] in *. destruct skip as [|k].
  - destruct (decode_rune (b :: s)) as [c n].
    rewrite (H c) by (left; reflexivity).
    destruct (word_char L2 c).
    + apply IH. intros c' Hc'. apply H. right. exact Hc'.
    + f_equal. apply IH. intros c' Hc'. apply H. right. exact Hc'.
  - apply IH. exact H.
Qed.

(** The loop over the words calls [GetWordBase] on each, in order. *)
Lemma for_each_word_run (words : list gostring) (st : RuStemmer) :
  exists stems st',
    for_each_word RuStemmer_GetWordBase words st = Ok stems st'
    /\ Forall2 (fun tok stem =>
                  forall st0, exists st1, GetWordBase tok st0 = Ok stem st1)
               words stems.
Proof.
  revert st. induction words as [|tok words IH]; intros st.
  - exists [], st. split; [reflexivity|constructor].
  - destruct (GetWordBase_run tok st) as (st1 & E1 & _).
    destruct (IH st1) as (stems & st2 & E2 & HF).
    exists (string_of_runes (word st1) :: stems), st2.
    cbn [for_each_word]. unfold bind. unfold GetWordBase in E1.
    rewrite E1, E2. split; [reflexivity|].
    constructor; [|exact HF].
    intros st0. exists st1. rewrite GetWordBase_instance.
    rewrite <- (GetWordBase_instance tok st). exact E1.
Qed.

(** ** The separator never occurs inside a stem *)

Lemma high_not_space (b : byte) : high b -> b <> space.
Proof. intros H ->. unfold high in H. vm_compute in H. apply H. reflexivity. Qed.

Lemma val_not_space (b : byte) : byte_val b <> 32 -> b <> space.
Proof. intros H ->. apply H. reflexivity. Qed.

(** The shapes of a decoding step: one byte giving itself (ASCII) or
    U+FFFD, or a sequence of a leading byte and width - 1 more bytes, all of
    them 0x80 or above, giving a rune that is not ASCII. *)
Lemma decode_rune_cases (b : byte) (s : gostring) :
  forall c n, decode_rune (b :: s) = (c, n) ->
    (n = 1%nat /\ c = byte_val b /\ byte_val b < 0x80)
    \/ (n = 1%nat /\ c = RuneError /\ 0x80 <= byte_val b)
    \/ (0x80 <= c /\ 0x80 <= byte_val b /\ Forall high (firstn (n - 1) s)).
Proof.
  intros c n. pose proof (byte_val_range b).
  unfold decode_rune, lead_info. zbool; cbv beta iota zeta;
    try (intros [= <- <-]; tauto).
  all: destruct s as [|b1 s]; [intros [= <- <-]; tauto|];
    pose proof (byte_val_range b1); unfold in_range; zbool;
    cbn [negb andb orb Nat.leb]; try (intros [= <- <-]; tauto);
    try (intros [= <- <-]; right; right; cbn [Nat.sub firstn];
         split; [lia|]; split; [lia|];
         repeat constructor; unfold high; lia).
  all: destruct s as [|b2 s]; [intros [= <- <-]; tauto|];
    pose proof (byte_val_range b2); unfold is_cont, in_range; zbool;
    cbn [negb andb orb Nat.leb]; try (intros [= <- <-]; tauto);
    try (intros [= <- <-]; right; right; cbn [Nat.sub firstn];
         split; [lia|]; split; [lia|];
         repeat constructor; unfold high; lia).
  all: destruct s as [|b3 s]; [intros [= <- <-]; tauto|];
    pose proof (byte_val_range b3); zbool;
    cbn [negb andb orb Nat.leb]; try (intros [= <- <-]; tauto);
    try (intros [= <- <-]; right; right; cbn [Nat.sub firstn];
         split; [lia|]; split; [lia|];
         repeat constructor; unfold high; lia).
Qed.

Lemma decode_from_no_space (s : gostring) :
  forall skip, Forall (fun b => b <> space) s -> ~ In 32 (decode_from skip s).
Proof.
  induction s as [|b s IH]; intros skip Hs; [intros []|].
  inversion Hs as [|? ? Hb Hs']; subst.
  cbn [decode_from]. destruct skip as [|k]; [|apply IH; exact Hs'].
  destruct (decode_rune (b :: s)) as [c n] eqn:E.
  intros [Hc|Hin]; [|exact (IH _ Hs' Hin)].
  destruct (decode_rune_cases b s c n E)
    as [(_ & Ec & _)|[(_ & Ec & _)|(Hc' & _)]].
  - apply Hb. apply byte_val_inj. rewrite <- Ec, Hc. reflexivity.
  - rewrite Ec in Hc. discriminate.
  - lia.
Qed.

Lemma encode_rune_no_space (r : rune) :
  r <> 32 -> Forall (fun b => b <> space) (encode_rune r).
Proof.
  intros Hr. unfold encode_rune, encode3, RuneError.
  destruct (Z.ltb_spec r 0).
  { repeat constructor; discriminate. }
  destruct (Z.leb_spec r 0x7F).
  { repeat constructor. apply val_not_space. unbyte. exact Hr. }
  destruct (Z.leb_spec r 0x7FF).
  { repeat constructor; apply val_not_space; unbyte; dlia. }
  destruct ((0x10FFFF <? r) || ((0xD800 <=? r) && (r <=? 0xDFFF))) eqn:E.
  { repeat constructor; discriminate. }
  apply orb_false_iff in E. destruct E as [E _]. apply Z.ltb_ge in E.
  destruct (Z.leb_spec r 0xFFFF);
    repeat constructor; apply val_not_space; unbyte; dlia.
Qed.

Lemma string_of_runes_no_space (rs : list rune) :
  ~ In 32 rs -> Forall (fun b => b <> space) (string_of_runes rs).
Proof.
  induction rs as [|r rs IH]; intros H; [constructor|].
  change (string_of_runes (r :: rs))
    with (encode_rune r ++ string_of_runes rs).
  apply Forall_app. split.
  - apply encode_rune_no_space. intros ->. apply H. left. reflexivity.
  - apply IH. intros Hin. apply H. right. exact Hin.
Qed.

(** A stem has no space when its word has none. *)
Lemma GetWordBase_no_space (tok stem : gostring) (st st' : RuStemmer) :
  Forall (fun b => b <> space) tok ->
  GetWordBase tok st = Ok stem st' ->
  Forall (fun b => b <> space) stem.
Proof.
  intros Htok E.
  destruct (GetWordBase_run tok st) as (st1 & E1 & _ & _ & _ & rest & Hw).
  rewrite E in E1. injection E1 as -> ->.
  apply string_of_runes_no_space. intros Hin.
  apply (decode_from_no_space tok 0 Htok).
  fold (runes_of_string tok). rewrite Hw. apply in_or_app. left. exact Hin.
Qed.

Lemma emit_Forall (P : byte -> Prop) (cur : gostring) :
  Forall P cur -> Forall (Forall P) (emit cur).
Proof.
  intros H. destruct cur; [constructor|].
  constructor; [exact H|constructor].
Qed.

Lemma find_words_no_space (unicode_L : rune -> bool) (s : gostring) :
  unicode_L 32 = false ->
  forall skip inword cur,
    Forall (fun b => b <> space) cur ->
    Forall high (firstn skip s) ->
    Forall (Forall (fun b => b <> space))
           (find_words unicode_L skip inword cur s).
Proof.
  intros HL. induction s as [|b s IH]; intros skip inword cur Hcur Hskip.
  - cbn [find_words]. apply emit_Forall. exact Hcur.
  - cbn [find_words]. destruct skip as [|k].
    + destruct (decode_rune (b :: s)) as [c n] eqn:E.
      pose proof (decode_rune_cases b s c n E) as Hc.
      assert (Hnext : Forall high (firstn (n - 1) s)).
      { destruct Hc as [(-> & _)|[(-> & _)|(_ & _ & H)]];
          [constructor|constructor|exact H]. }
      destruct (word_char unicode_L c) eqn:Ew.
      * apply IH; [|exact Hnext]. apply Forall_app. split; [exact Hcur|].
        constructor; [|constructor]. intros ->.
        destruct Hc as [(_ & Ec & _)|[(_ & _ & Hb)|(_ & Hb & _)]];
          try (vm_compute in Hb; apply Hb; reflexivity).
        rewrite Ec in Ew. unfold word_char in Ew.
        change (byte_val space) with 32 in Ew. rewrite HL in Ew.
        discriminate.
      * apply Forall_app. split.
        -- apply emit_Forall. exact Hcur.
        -- apply IH; [constructor|exact Hnext].
    + cbn [firstn] in Hskip. inversion Hskip as [|? ? Hb Hk]; subst.
      apply IH; [|exact Hk]. destruct inword; [|exact Hcur].
      apply Forall_app. split; [exact Hcur|].
      constructor; [apply high_not_space; exact Hb|constructor].
Qed.

Lemma split_spaces_app (a cur s : gostring) :
  Forall (fun b => b <> space) a ->
  split_spaces cur (a ++ s) = split_spaces (cur ++ a) s.
Proof.
  revert cur. induction a as [|x a IH]; intros cur Ha.
  - rewrite app_nil_r. reflexivity.
  - inversion Ha as [|? ? Hx Ha']; subst. cbn [app split_spaces].
    destruct (Byte.eqb x space) eqn:E.
    + apply Byte.byte_dec_bl in E. contradiction.
    + rewrite IH by exact Ha'. rewrite <- app_assoc. reflexivity.
Qed.

(** Splitting the joined fields at the spaces gives the fields back, the
    empty ones included. *)
Lemma split_spaces_Join (elems : list gostring) :
  elems <> [] ->
  Forall (Forall (fun b => b <> space)) elems ->
  split_spaces [] (Join elems (lit " ")) = elems.
Proof.
  intros Hne H. revert Hne.
  induction H as [|e rest He Hrest IH]; intros Hne;
    [exfalso; apply Hne; reflexivity|].
  destruct rest as [|e' rest].
  - cbn [Join]. rewrite <- (app_nil_r e) at 1.
    rewrite split_spaces_app by exact He. reflexivity.
  - change (Join (e :: e' :: rest) (lit " "))
      with (e ++ space :: Join (e' :: rest) (lit " ")).
    rewrite split_spaces_app by exact He. cbn [split_spaces app].
    change (Byte.eqb space space) with true. cbv iota.
    rewrite IH by discriminate. reflexivity.
Qed.

(** ** What [findRegions] computes for [RV] *)

Lemma skipn_nth_error {A} (l : list A) (n : nat) (x : A) :
  nth_error l n = Some x -> skipn n l = x :: skipn (S n) l.
Proof.
  revert n. induction l as [|y l IH]; intros [|n] H; try discriminate.
  - injection H as ->. reflexivity.
  - cbn [skipn]. apply IH. exact H.
Qed.

(** Once a vowel has been seen, [RV] is not written again. *)
Lemma findRegions_loop_RV_kept (n : nat) (i state : Z) (st : RuStemmer) :
  state <> 0 -> 1 <= i ->
  ((0 < n)%nat -> i + Z.of_nat n <= len (word st)) ->
  wp (findRegions_loop n i state)
     (fun _ st' => word st' = word st /\ RV st' = RV st) st.
Proof.
  revert i state st. induction n as [|n IH]; intros i state st Hs Hi Hn.
  - apply wp_ret. auto.
  - cbn [findRegions_loop]. specialize (Hn ltac:(lia)).
    apply wp_bind, wp_get_word.
    apply wp_bind, wp_index; [lia|]. intros p _.
    apply wp_bind, wp_index; [lia|]. intros c _.
    destruct (Z.eqb_spec state 0); [contradiction|].
    assert (Hrec : forall state', state' <> 0 ->
               wp (findRegions_loop n (i + 1) state')
                  (fun _ st' => word st' = word st /\ RV st' = RV st) st).
    { intros state' Hs'. apply IH; [exact Hs'|lia|intros _; lia]. }
    destruct (state =? 1).
    { destruct (isVowel (encode_rune p) && negb (isVowel (encode_rune c)));
        apply Hrec; lia. }
    destruct (state =? 2).
    { destruct (isVowel (encode_rune p) && negb (isVowel (encode_rune c))).
      - apply wp_bind. unfold wp at 1, set_R2. apply wp_ret.
        cbn [word RV]. auto.
      - apply Hrec. exact Hs. }
    apply Hrec. exact Hs.
Qed.

(** In state 0 the loop looks for the first vowel at index [i] or later. *)
Lemma findRegions_loop_RV (n : nat) (i : Z) (st : RuStemmer) :
  1 <= i -> i + Z.of_nat n = len (word st) ->
  wp (findRegions_loop n i 0)
     (fun _ st' =>
        word st' = word st
        /\ RV st' = match first_vowel (skipn (Z.to_nat i) (word st)) with
                    | Some k => i + Z.of_nat k + 1
                    | None => RV st
                    end) st.
Proof.
  revert i st. induction n as [|n IH]; intros i st Hi Hn.
  - apply wp_ret. rewrite skipn_all2 by (unfold len in Hn; lia).
    split; reflexivity.
  - cbn [findRegions_loop].
    apply wp_bind, wp_get_word.
    apply wp_bind, wp_index; [lia|]. intros p _.
    apply wp_bind, wp_index; [lia|]. intros c Hc.
    rewrite (skipn_nth_error _ _ _ Hc). cbn [first_vowel].
    change (0 =? 0) with true. cbv iota.
    destruct (isVowel (encode_rune c)).
    + apply wp_bind. unfold wp at 1, set_RV.
      eapply wp_mono;
        [|apply findRegions_loop_RV_kept; [lia|lia|cbn [word]; intros _; lia]].
      cbv beta. cbn [word RV]. intros _ st' [Hw Hrv]. split; [exact Hw|lia].
    + eapply wp_mono; [|apply IH; lia]. cbv beta.
      intros _ st' [Hw Hrv]. split; [exact Hw|]. rewrite Hrv.
      replace (Z.to_nat (i + 1)) with (S (Z.to_nat i)) by lia.
      destruct (first_vowel (skipn (S (Z.to_nat i)) (word st)));
        cbn [option_map]; lia.
Qed.

(** [findRegions] sets [RV] after the first vowel found from index 1 on:
    the rune at index 0 is never tested. *)
Lemma findRegions_RV (w : list rune) :
  exists st',
    findRegions (mkRuStemmer w 0 0) = Ok tt st'
    /\ word st' = w
    /\ RV st' = match first_vowel (tl w) with
                | Some k => Z.of_nat k + 2
                | None => 0
                end.
Proof.
  assert (H : wp findRegions
                 (fun _ st' =>
                    word st' = w
                    /\ RV st' = match first_vowel (tl w) with
                                | Some k => Z.of_nat k + 2
                                | None => 0
                                end) (mkRuStemmer w 0 0)).
  { unfold findRegions. apply wp_bind, wp_get_word. cbn [word].
    destruct w as [|c w].
    - apply wp_ret. split; reflexivity.
    - eapply wp_mono; [|apply findRegions_loop_RV;
                        [lia|unfold len; cbn [word length]; lia]].
      cbv beta. cbn [word RV tl].
      change (skipn (Z.to_nat 1) (c :: w)) with w.
      intros _ st' [Hw Hrv]. split; [exact Hw|]. rewrite Hrv.
      destruct (first_vowel w); lia. }
  apply wp_Ok in H. destruct H as ([] & st' & E & H). eauto.
Qed.

(** For a word that does not begin with a vowel, [RV] is the offset just
    after its first vowel, and 0 when it has none. *)
Lemma findRegions_RV_consonant_first (w : list rune) :
  match w with
  | [] => True
  | c :: _ => isVowel (encode_rune c) = false
  end ->
  exists st',
    findRegions (mkRuStemmer w 0 0) = Ok tt st'
    /\ RV st' = after_first_vowel w.
Proof.
  intros Hw. destruct (findRegions_RV w) as (st' & E & _ & Hrv).
  exists st'. split; [exact E|]. rewrite Hrv. unfold after_first_vowel.
  destruct w as [|c w]; [reflexivity|].
  cbn [tl first_vowel]. rewrite Hw.
  destruct (first_vowel w); cbn [option_map]; lia.
Qed.

(** ** [isVowel] accepts the ten runes of [VOWEL] and nothing else *)

Lemma HasPrefix_firstn (s p : gostring) :
  HasPrefix s p = true -> p = firstn (length p) s.
Proof.
  unfold HasPrefix. intros H. apply andb_true_iff in H.
  destruct H as [_ H]. apply bytes_eqb_eq in H. symmetry. exact H.
Qed.

Lemma Contains_offset (s p : gostring) :
  Contains s p = true ->
  exists k, (k <= length s)%nat /\ p = firstn (length p) (skipn k s).
Proof.
  induction s as [|b s IH]; cbn [Contains]; intros H;
    apply orb_true_iff in H; destruct H as [H|H].
  - exists 0%nat. split; [lia|]. apply HasPrefix_firstn. exact H.
  - discriminate.
  - exists 0%nat. split; [lia|]. apply HasPrefix_firstn. exact H.
  - destruct (IH H) as (k & Hk & E). exists (S k). cbn [length skipn].
    split; [lia|exact E].
Qed.

Lemma encode_rune_length (r : rune) :
  (1 <= length (encode_rune r) <= 4)%nat.
Proof.
  unfold encode_rune, encode3.
  repeat match goal with
         | |- context [if ?c then _ else _] => destruct c
         end; cbn [length]; lia.
Qed.

Lemma encode_rune_invalid (r : rune) :
  ~ valid_rune r -> encode_rune r = encode3 RuneError.
Proof.
  unfold valid_rune, encode_rune. intros H.
  destruct (Z.ltb_spec r 0); [reflexivity|].
  destruct (Z.leb_spec r 0x7F); [lia|].
  destruct (Z.leb_spec r 0x7FF); [lia|].
  destruct (Z.ltb_spec 0x10FFFF r); [reflexivity|].
  destruct (Z.leb_spec 0xD800 r); [|lia].
  destruct (Z.leb_spec r 0xDFFF); [reflexivity|lia].
Qed.

Lemma valid_rune_dec (r : rune) : {valid_rune r} + {~ valid_rune r}.
Proof.
  unfold valid_rune.
  destruct (Z_le_dec 0 r); destruct (Z_lt_dec r 0xD800);
    destruct (Z_le_dec 0xE000 r); destruct (Z_le_dec r 0x10FFFF);
    (left; lia) || (right; lia).
Qed.

Lemma isVowel_spec (c : rune) :
  isVowel (encode_rune c) = true <-> In c vowel_runes.
Proof.
  split.
  - intros H. destruct (valid_rune_dec c) as [Hv|Hv].
    + unfold isVowel in H. apply Contains_offset in H.
      destruct H as (k & Hk & E0).
      pose proof (f_equal runes_of_string E0) as E.
      assert (Ec : runes_of_string (encode_rune c) = [c]).
      { pose proof (runes_of_string_of_runes [c]) as R.
        unfold string_of_runes in R. cbn [flat_map] in R.
        rewrite app_nil_r in R. apply R.
        constructor; [exact Hv|constructor]. }
      rewrite Ec in E. clear Ec.
      pose proof (encode_rune_length c) as Hl.
      destruct (length (encode_rune c)) as [|[|[|[|[|n]]]]]; try lia;
        clear Hl;
        change (length VOWEL) with 20%nat in Hk;
        do 21 (destruct k as [|k];
               [vm_compute in E;
                first [discriminate E
                      | injection E as ->;
                        first [vm_compute in E0; discriminate E0
                              | vm_compute; tauto]]|]);
        lia.
    + rewrite (encode_rune_invalid c Hv) in H. vm_compute in H.
      discriminate.
  - intros H. vm_compute in H.
    repeat (destruct H as [<-|H]; [vm_compute; reflexivity|]).
    destruct H.
Qed.

(** * The claims *)

(** C1. [GetWordBase("вазы")] returns exactly "ваз", whatever the previous
    call left in the instance. *)
Theorem GetWordBase_vazy :
  forall st, exists st',
    GetWordBase (lit "вазы") st = Ok (lit "ваз") st'.
Proof.
  intros st. rewrite GetWordBase_instance. eexists. vm_compute. reflexivity.
Qed.

(** C2. On the text of the README, [NormalizeText] finds the eight maximal
    runs of letters, digits and underscore, and returns their stems joined
    by single spaces, for every letter table in which the letters "А" to
    "я" are letters and full stop, comma and space are not. *)
Theorem NormalizeText_address (unicode_L : rune -> bool) :
  (forall c, 0x410 <= c <= 0x44F -> unicode_L c = true) ->
  unicode_L 0x20 = false -> unicode_L 0x2C = false -> unicode_L 0x2E = false ->
  FindAllString unicode_L (lit "г. Москва, ул. Полярная, д. 31А, стр. 1")
  = map lit ["г"; "Москва"; "ул"; "Полярная"; "д"; "31А"; "стр"; "1"]%string
  /\ forall st, exists st',
       NormalizeText unicode_L (lit "г. Москва, ул. Полярная, д. 31А, стр. 1") st
       = Ok (lit "г Москв ул Полярн д 31А стр 1") st'.
Proof.
  intros Hcyr Hsp Hcomma Hdot.
  assert (E : FindAllString unicode_L
                (lit "г. Москва, ул. Полярная, д. 31А, стр. 1")
              = FindAllString cyrillic_basic
                  (lit "г. Москва, ул. Полярная, д. 31А, стр. 1")).
  { apply find_words_ext. apply Forall_forall.
    let l := eval vm_compute in
      (decode_from 0 (lit "г. Москва, ул. Полярная, д. 31А, стр. 1")) in
    change (decode_from 0 (lit "г. Москва, ул. Полярная, д. 31А, стр. 1"))
      with l.
    repeat (constructor;
            [ unfold word_char;
              first [ rewrite Hcyr by lia | rewrite Hsp | rewrite Hcomma
                    | rewrite Hdot
                    | match goal with
                      | |- context [unicode_L ?c] => destruct (unicode_L c)
                      end ];
              vm_compute; reflexivity | ]).
    constructor. }
  split.
  - rewrite E. vm_compute. reflexivity.
  - intros st. unfold NormalizeText, RuStemmer_NormalizeText. rewrite E.
    eexists. vm_compute. reflexivity.
Qed.

Lemma NormalizeText_address_witness :
  FindAllString cyrillic_basic (lit "г. Москва, ул. Полярная, д. 31А, стр. 1")
  = map lit ["г"; "Москва"; "ул"; "Полярная"; "д"; "31А"; "стр"; "1"]%string
  /\ forall st, exists st',
       NormalizeText cyrillic_basic
         (lit "г. Москва, ул. Полярная, д. 31А, стр. 1") st
       = Ok (lit "г Москв ул Полярн д 31А стр 1") st'.
Proof.
  apply (NormalizeText_address cyrillic_basic).
  - intros c Hc. unfold cyrillic_basic, in_range.
    apply andb_true_iff. split; apply Z.leb_le; lia.
  - reflexivity.
  - reflexivity.
  - reflexivity.
Defined.

(** The call with one suffix list: the entry that is cut is the first
    one, in list order, that is non-empty and ends the tail
    [word[region:]]: the entries [pre] before it do not end the tail (an
    empty entry cuts nothing and is passed over), and the entries [post]
    after it are never looked at, be they longer matches or not.  Exactly
    that one suffix [s] is cut from the tail [t ++ s]. *)
Theorem removeEndings_first_in_list_order
  (w : list rune) (rv r2 region : Z) (pre post : list gostring)
  (s t : gostring) :
  0 <= region ->
  string_of_runes (skipn (clamp region w) w) = t ++ s ->
  s <> [] ->
  Forall (fun p => p = []
            \/ ~ ends_with (string_of_runes (skipn (clamp region w) w)) p)
         pre ->
  removeEndings region [pre ++ s :: post] (mkRuStemmer w rv r2)
  = Ok true
      (mkRuStemmer
         (runes_of_string (string_of_runes (firstn (clamp region w) w) ++ t))
         rv r2).
Proof.
  intros Hr Htail Hne Hpre.
  rewrite removeEndings_eq by exact Hr. cbn [word RV R2]. cbv zeta.
  unfold removeEndings_plain.
  set (word_ := string_of_runes (skipn (clamp region w) w)) in *.
  assert (E : trimFirstSuffix word_ (pre ++ s :: post) false = t).
  { apply trimFirstSuffix_hit; [|split; [exact Hne|]|exact Htail].
    - eapply Forall_impl; [|exact Hpre]. intros p [->|Hp] (Hn & He & _).
      + congruence.
      + contradiction.
    - split; [exists t; exact Htail|discriminate]. }
  rewrite E.
  assert (Hb : bytes_eqb t word_ = false).
  { apply bytes_eqb_neq. rewrite Htail. apply hit_changes. exact Hne. }
  rewrite Hb. reflexivity.
Qed.

Lemma removeEndings_first_in_list_order_witness :
  removeEndings 2 [[lit "ы"; lit "а"; lit "ва"; lit "ова"]]
    (mkRuStemmer (runes_of_string (lit "слова")) 0 0)
  = Ok true (mkRuStemmer (runes_of_string (lit "слов")) 0 0).
Proof.
  apply (removeEndings_first_in_list_order
           (runes_of_string (lit "слова")) 0 0 2
           [lit "ы"] [lit "ва"; lit "ова"] (lit "а") (lit "ов")).
  - lia.
  - vm_compute. reflexivity.
  - discriminate.
  - constructor; [|constructor]. right. apply HasSuffix_false.
    vm_compute. reflexivity.
Defined.

(** The claim as first worded fails on a gated list.  In the call that
    Step 1 makes with the verb pair on "желанно" ([RV = 2], tail "ланно"),
    "но" is the first entry of the first list whose characters end the
    tail, but it is not preceded by "а" or "я" and is passed over; the later
    and longer "нно" is cut and the word becomes "жела", not "желан". *)
Lemma removeEndings_gate_passes_over_ending_entry :
  nth 0 suffixVerb []
  = firstn 10 (nth 0 suffixVerb []) ++ lit "но"
    :: skipn 11 (nth 0 suffixVerb [])
  /\ Forall (fun p =>
               ~ ends_with
                   (string_of_runes (skipn 2 (runes_of_string (lit "желанно"))))
                   p)
            (firstn 10 (nth 0 suffixVerb []))
  /\ string_of_runes (skipn 2 (runes_of_string (lit "желанно")))
     = lit "лан" ++ lit "но"
  /\ removeEndings 2 suffixVerb
       (mkRuStemmer (runes_of_string (lit "желанно")) 2 0)
     = Ok true (mkRuStemmer (runes_of_string (lit "жела")) 2 0)
  /\ removeEndings 2 suffixVerb
       (mkRuStemmer (runes_of_string (lit "желанно")) 2 0)
     <> Ok true (mkRuStemmer (runes_of_string (lit "желан")) 2 0).
Proof.
  split; [vm_compute; reflexivity|]. split; [|split; [|split]].
  - apply Forall_forall. intros p Hp. apply HasSuffix_false.
    revert p Hp. apply Forall_forall.
    repeat (constructor; [vm_compute; reflexivity|]). constructor.
  - vm_compute. reflexivity.
  - vm_compute. reflexivity.
  - vm_compute. discriminate.
Qed.

(** C3. In every call the suffix that is cut is the first entry, in list
    order, that hits: a non-empty entry that ends the tail [word[region:]]
    and, in the first list of a call with two lists, is preceded there by
    "а" or "я".  Entries after it are never looked at, be they longer
    matches or not; the second list of a pair is scanned, with no
    precondition, only when no entry of the first hits; exactly the one
    suffix [s] is cut from the tail [t ++ s], and a call without a hit cuts
    nothing. *)
Theorem removeEndings_first_hit_in_list_order
  (w : list rune) (rv r2 region : Z) (packs : list (list gostring)) :
  0 <= region ->
  let st := mkRuStemmer w rv r2 in
  let tail := string_of_runes (skipn (clamp region w) w) in
  let cut t :=
    Ok true
      (mkRuStemmer
         (runes_of_string (string_of_runes (firstn (clamp region w) w) ++ t))
         rv r2) in
  (forall first second, packs = [first; second] ->
     (forall t s, first_hit true tail first t s ->
                  removeEndings region packs st = cut t)
     /\ (forall t s, no_hit true tail first ->
                     first_hit false tail second t s ->
                     removeEndings region packs st = cut t)
     /\ (no_hit true tail first -> no_hit false tail second ->
         removeEndings region packs st = Ok false st))
  /\ (forall first rest, packs = first :: rest -> length rest <> 1%nat ->
        (forall t s, first_hit false tail first t s ->
                     removeEndings region packs st = cut t)
        /\ (no_hit false tail first ->
            removeEndings region packs st = Ok false st)).
Proof.
  intros Hr st tail cut.
  assert (Hcut : forall isAYA suffixes t s,
             first_hit isAYA tail suffixes t s ->
             trimFirstSuffix tail suffixes isAYA = t
             /\ bytes_eqb t tail = false).
  { intros isAYA suffixes t s (pre & post & -> & Hpre & Hs & Ht). split.
    - apply trimFirstSuffix_hit; assumption.
    - apply bytes_eqb_neq. rewrite Ht. apply hit_changes. apply Hs. }
  assert (Hplain : forall suffixes,
             (forall t s, first_hit false tail suffixes t s ->
                removeEndings_plain (firstn (clamp region w) w) tail
                  suffixes st = cut t)
             /\ (no_hit false tail suffixes ->
                 removeEndings_plain (firstn (clamp region w) w) tail
                   suffixes st = Ok false st)).
  { intros suffixes. unfold removeEndings_plain. split.
    - intros t s H. destruct (Hcut false suffixes t s H) as [-> ->].
      reflexivity.
    - intros H. rewrite (trimFirstSuffix_miss tail suffixes false H).
      rewrite bytes_eqb_refl. reflexivity. }
  split.
  - intros first second ->.
    rewrite removeEndings_eq by exact Hr. cbv zeta. unfold st.
    cbn [word RV R2]. fold tail. split; [|split].
    + intros t s H. destruct (Hcut true first t s H) as [-> ->]. reflexivity.
    + intros t s Hno H.
      rewrite (trimFirstSuffix_miss tail first true Hno), bytes_eqb_refl.
      apply (proj1 (Hplain second) t s H).
    + intros Hno H.
      rewrite (trimFirstSuffix_miss tail first true Hno), bytes_eqb_refl.
      apply (proj2 (Hplain second) H).
  - intros first rest -> Hlen.
    rewrite removeEndings_eq by exact Hr. cbv zeta. unfold st.
    cbn [word RV R2]. fold tail.
    destruct rest as [|p1 [|p2 rest]]; [|cbn [length] in Hlen; congruence|];
      exact (Hplain first).
Qed.

Lemma removeEndings_first_hit_in_list_order_witness :
  removeEndings 2 suffixVerb
    (mkRuStemmer (runes_of_string (lit "желанно")) 2 0)
  = Ok true (mkRuStemmer (runes_of_string (lit "жела")) 2 0)
  /\ removeEndings 2 [[lit "ы"; lit "а"; lit "ва"; lit "ова"]]
       (mkRuStemmer (runes_of_string (lit "слова")) 0 0)
     = Ok true (mkRuStemmer (runes_of_string (lit "слов")) 0 0).
Proof.
  split.
  - apply (proj1 (proj1 (removeEndings_first_hit_in_list_order
                           (runes_of_string (lit "желанно")) 2 0 2 suffixVerb
                           ltac:(lia))
                    (nth 0 suffixVerb []) (nth 1 suffixVerb []) eq_refl)
             (lit "ла") (lit "нно")).
    exists (firstn 16 (nth 0 suffixVerb [])), [].
    split; [vm_compute; reflexivity|]. split; [|split].
    + apply Forall_forall. intros p Hp (_ & _ & Hg).
      specialize (Hg eq_refl).
      match type of Hg with
      | ends_with ?tl _ \/ _ =>
        assert (Hm : HasSuffix tl (lit "а" ++ p) = false
                     /\ HasSuffix tl (lit "я" ++ p) = false)
      end.
      { clear Hg. revert p Hp. apply Forall_forall.
        repeat (constructor; [split; vm_compute; reflexivity|]).
        constructor. }
      destruct Hm as [Ha Hya]. apply HasSuffix_false in Ha, Hya.
      destruct Hg; contradiction.
    + split; [discriminate|]. split.
      * exists (lit "ла"). vm_compute. reflexivity.
      * intros _. left. exists (lit "л"). vm_compute. reflexivity.
    + vm_compute. reflexivity.
  - apply (proj1 (proj2 (removeEndings_first_hit_in_list_order
                           (runes_of_string (lit "слова")) 0 0 2
                           [[lit "ы"; lit "а"; lit "ва"; lit "ова"]]
                           ltac:(lia))
                    [lit "ы"; lit "а"; lit "ва"; lit "ова"] [] eq_refl
                    ltac:(discriminate))
             (lit "ов") (lit "а")).
    exists [lit "ы"], [lit "ва"; lit "ова"].
    split; [reflexivity|]. split; [|split].
    + constructor; [|constructor]. intros (_ & He & _).
      apply HasSuffix_ends_with in He. vm_compute in He. discriminate.
    + split; [discriminate|]. split; [|discriminate].
      exists (lit "ов"). vm_compute. reflexivity.
    + vm_compute. reflexivity.
Defined.

(** C4. In a call with two suffix lists, an entry [s] of the first list is
    cut only where the tail ends with "а" + [s] or "я" + [s]; then exactly
    [s] is cut and the vowel [v] stays.  When no entry of the first list
    passes that test, the call is the call with the second list alone, which
    scans it with no precondition. *)
Theorem removeEndings_vowel_gate
  (w : list rune) (rv r2 region : Z) (first second : list gostring) :
  0 <= region ->
  let tail := string_of_runes (skipn (clamp region w) w) in
  let gated p :=
    p = [] \/ (~ ends_with tail (lit "а" ++ p)
               /\ ~ ends_with tail (lit "я" ++ p)) in
  (forall pre s post t v,
      first = pre ++ s :: post -> Forall gated pre -> s <> [] ->
      v = lit "а" \/ v = lit "я" ->
      tail = t ++ v ++ s ->
      removeEndings region [first; second] (mkRuStemmer w rv r2)
      = Ok true
          (mkRuStemmer
             (runes_of_string
                (string_of_runes (firstn (clamp region w) w) ++ t ++ v))
             rv r2))
  /\ (Forall gated first ->
      removeEndings region [first; second] (mkRuStemmer w rv r2)
      = removeEndings region [second] (mkRuStemmer w rv r2)).
Proof.
  intros Hr tail gated.
  assert (Hgate : forall l, Forall gated l ->
                            Forall (fun p => ~ hits true tail p) l).
  { intros l Hl. eapply Forall_impl; [|exact Hl].
    intros p [->|[Ha Hya]] (Hn & _ & H).
    - congruence.
    - destruct (H eq_refl); contradiction. }
  split.
  - intros pre s post t v -> Hpre Hne Hv Htail.
    rewrite removeEndings_eq by exact Hr. cbn [word RV R2]. cbv zeta.
    fold tail.
    assert (E : trimFirstSuffix tail (pre ++ s :: post) true = t ++ v).
    { apply trimFirstSuffix_hit.
      - apply Hgate. exact Hpre.
      - split; [exact Hne|]. split.
        + exists (t ++ v). rewrite Htail. apply app_assoc.
        + intros _. destruct Hv as [-> | ->]; [left|right]; exists t;
            exact Htail.
      - rewrite Htail. apply app_assoc. }
    rewrite E.
    assert (Hb : bytes_eqb (t ++ v) tail = false).
    { apply bytes_eqb_neq. rewrite Htail, app_assoc.
      apply hit_changes. exact Hne. }
    rewrite Hb. reflexivity.
  - intros Hfirst.
    rewrite !removeEndings_eq by exact Hr. cbn [word RV R2]. cbv zeta.
    fold tail.
    rewrite (trimFirstSuffix_miss tail first true) by (apply Hgate; exact Hfirst).
    rewrite bytes_eqb_refl. reflexivity.
Qed.

Lemma removeEndings_vowel_gate_witness :
  removeEndings 2 suffixVerb (mkRuStemmer (runes_of_string (lit "читала")) 2 0)
  = Ok true (mkRuStemmer (runes_of_string (lit "чита")) 2 0)
  /\ removeEndings 2 suffixVerb
       (mkRuStemmer (runes_of_string (lit "говорит")) 2 0)
     = removeEndings 2 [nth 1 suffixVerb []]
         (mkRuStemmer (runes_of_string (lit "говорит")) 2 0).
Proof.
  split.
  - apply (proj1 (removeEndings_vowel_gate
                    (runes_of_string (lit "читала")) 2 0 2
                    (nth 0 suffixVerb []) (nth 1 suffixVerb [])
                    ltac:(lia))
             [] (lit "ла") (tl (nth 0 suffixVerb [])) (lit "т") (lit "а")).
    + reflexivity.
    + constructor.
    + discriminate.
    + left. reflexivity.
    + vm_compute. reflexivity.
  - apply (proj2 (removeEndings_vowel_gate
                    (runes_of_string (lit "говорит")) 2 0 2
                    (nth 0 suffixVerb []) (nth 1 suffixVerb [])
                    ltac:(lia))).
    apply Forall_forall. intros p Hp. right.
    split; apply HasSuffix_false;
      revert p Hp; apply Forall_forall;
      repeat (constructor; [vm_compute; reflexivity|]); constructor.
Defined.

(** C5. Step 1 of [GetWordBase] runs one branch of the specification's
    Step 1, and only one: a successful gerund removal ends the step; else
    the reflexive removal is attempted without its outcome being used, then
    participle, adjective (only if participle failed), verb (only if both
    failed) and noun (only if verb failed too), so at most one of the
    groups gerund, participle-or-adjective, verb, noun is removed. *)
Theorem Step1_one_branch (st : RuStemmer) :
  0 <= RV st ->
  exists br st',
    Step1 st = Ok tt st'
    /\ Step1_spec st br st'
    /\ forall br2 st2, Step1_spec st br2 st2 -> br2 = br /\ st2 = st'.
Proof.
  intros Hrv.
  assert (Hex : exists br st', Step1 st = Ok tt st' /\ Step1_spec st br st').
  { unfold Step1, orM, andM, notM, bind, get_RV, ret.
    destruct (attempt_total suffixPerfectiveGerunds st Hrv ltac:(discriminate))
      as (b1 & st1 & E1 & Hrv1).
    pose proof E1 as E1'. unfold attempt in E1'. rewrite E1'.
    destruct b1; cbn [negb].
    { exists GerundBranch, st1. split; [reflexivity|].
      apply Step1_gerund. exact E1. }
    destruct (attempt_total [suffixReflexives] st1 ltac:(lia)
                ltac:(discriminate)) as (r & st2 & E2 & Hrv2).
    pose proof E2 as E2'. unfold attempt in E2'. rewrite E2'.
    destruct (attempt_total suffixParticiple st2 ltac:(lia)
                ltac:(discriminate)) as (b3 & st3 & E3 & Hrv3).
    pose proof E3 as E3'. unfold attempt in E3'. rewrite E3'.
    destruct b3; cbn [negb].
    { exists AdjectivalBranch, st3. split; [reflexivity|].
      eapply Step1_participle; eassumption. }
    destruct (attempt_total [suffixAdjective] st3 ltac:(lia)
                ltac:(discriminate)) as (b4 & st4 & E4 & Hrv4).
    pose proof E4 as E4'. unfold attempt in E4'. rewrite E4'.
    destruct b4; cbn [negb].
    { exists AdjectivalBranch, st4. split; [reflexivity|].
      eapply Step1_adjective; eassumption. }
    destruct (attempt_total suffixVerb st4 ltac:(lia)
                ltac:(discriminate)) as (b5 & st5 & E5 & Hrv5).
    pose proof E5 as E5'. unfold attempt in E5'. rewrite E5'.
    destruct b5; cbn [negb].
    { exists VerbBranch, st5. split; [reflexivity|].
      eapply Step1_verb; eassumption. }
    destruct (attempt_total [suffixNoun] st5 ltac:(lia)
                ltac:(discriminate)) as (b6 & st6 & E6 & Hrv6).
    pose proof E6 as E6'. unfold attempt in E6'. rewrite E6'.
    destruct b6.
    - exists NounBranch, st6. split; [reflexivity|].
      eapply Step1_noun; eassumption.
    - exists NoBranch, st6. split; [reflexivity|].
      eapply Step1_nothing; eassumption. }
  destruct Hex as (br & st' & E & Hs).
  exists br, st'. split; [exact E|]. split; [exact Hs|].
  intros br2 st2 H2. eapply Step1_spec_functional; eassumption.
Qed.

Lemma Step1_one_branch_witness :
  exists br st',
    Step1 (mkRuStemmer (runes_of_string (lit "прочитавши")) 3 0) = Ok tt st'
    /\ Step1_spec (mkRuStemmer (runes_of_string (lit "прочитавши")) 3 0) br st'
    /\ forall br2 st2,
         Step1_spec (mkRuStemmer (runes_of_string (lit "прочитавши")) 3 0)
           br2 st2 ->
         br2 = br /\ st2 = st'.
Proof.
  apply (Step1_one_branch (mkRuStemmer (runes_of_string (lit "прочитавши")) 3 0)).
  cbn [RV]. lia.
Defined.

(** C6. The region finder does not test the first rune of the word: "ива"
    has its first vowel at index 0, so the offset after it is 1, but [RV]
    is set to 3, after the "а"; and "а", which is a vowel, leaves [RV] at 0
    as if the word had none. *)
Theorem findRegions_skips_first_rune :
  after_first_vowel (runes_of_string (lit "ива")) = 1
  /\ findRegions (mkRuStemmer (runes_of_string (lit "ива")) 0 0)
     = Ok tt (mkRuStemmer (runes_of_string (lit "ива")) 3 0)
  /\ after_first_vowel (runes_of_string (lit "а")) = 1
  /\ findRegions (mkRuStemmer (runes_of_string (lit "а")) 0 0)
     = Ok tt (mkRuStemmer (runes_of_string (lit "а")) 0 0).
Proof.
  repeat split; vm_compute; reflexivity.
Qed.

(** C7. A call of the suffix removal returns and leaves the first
    [min(region, len(word))] runes of the word as they were, whether a
    suffix was cut or not, for every region, every non-empty sequence of
    suffix lists (whatever bytes the suffixes hold) and every word of
    Unicode scalar values, which is what [[]rune(string)] yields. *)
Theorem removeEndings_keeps_prefix
  (st : RuStemmer) (region : Z) (packs : list (list gostring)) :
  0 <= region -> packs <> [] -> Forall valid_rune (word st) ->
  exists matched st',
    removeEndings region packs st = Ok matched st'
    /\ firstn (Z.to_nat (Z.min region (len (word st)))) (word st')
       = firstn (Z.to_nat (Z.min region (len (word st)))) (word st).
Proof.
  intros Hr Hp Hv.
  destruct (removeEndings_stripped region packs st Hr Hp) as (b & st' & E & Hs).
  exists b, st'. split; [exact E|].
  exact (stripped_frame region packs st st' b Hv Hs).
Qed.

Lemma removeEndings_keeps_prefix_witness :
  exists matched st',
    removeEndings 3 [suffixNoun]
      (mkRuStemmer (runes_of_string (lit "вазы")) 2 0) = Ok matched st'
    /\ firstn 3 (word st') = firstn 3 (runes_of_string (lit "вазы")).
Proof.
  apply (removeEndings_keeps_prefix
           (mkRuStemmer (runes_of_string (lit "вазы")) 2 0) 3 [suffixNoun]).
  - lia.
  - discriminate.
  - apply runes_of_string_valid.
Defined.

(** C8. [GetWordBase] returns a string for every input string and from
    every state of the instance, without panicking; every call of the
    suffix removal with a region that is not negative returns, its slice
    bound is within [0 .. len(word)], and a region at or beyond the end of
    the word (an empty tail) gives "no match" and changes nothing. *)
Theorem GetWordBase_total :
  (forall (s : gostring) (st : RuStemmer),
      exists out st', GetWordBase s st = Ok out st')
  /\ (forall (region : Z) (packs : list (list gostring)) (st : RuStemmer),
         0 <= region -> packs <> [] ->
         (exists matched st', removeEndings region packs st = Ok matched st')
         /\ 0 <= Z.min region (len (word st)) <= len (word st)
         /\ (len (word st) <= region ->
             removeEndings region packs st = Ok false st)).
Proof.
  split.
  - intros s st. destruct (GetWordBase_run s st) as (st' & E & _).
    eauto.
  - intros region packs st Hr Hp. split; [|split].
    + destruct (removeEndings_stripped region packs st Hr Hp)
        as (b & st' & E & _). eauto.
    + unfold len. lia.
    + intros Hle. apply removeEndings_beyond_word; assumption.
Qed.

Lemma GetWordBase_total_witness :
  (exists out st', GetWordBase (lit "") New = Ok out st')
  /\ removeEndings 5 [suffixNN] (mkRuStemmer (runes_of_string (lit "нн")) 0 0)
     = Ok false (mkRuStemmer (runes_of_string (lit "нн")) 0 0).
Proof.
  split.
  - apply (proj1 GetWordBase_total).
  - apply (proj2 GetWordBase_total 5 [suffixNN]
             (mkRuStemmer (runes_of_string (lit "нн")) 0 0)).
    + lia.
    + discriminate.
    + vm_compute. discriminate.
Defined.

(** C9. [NormalizeText] returns the stems of the tokens of the text, one
    per token and in the order of the tokens, joined by single spaces; a
    stem that is empty (as the stem of "а" is) is a field like any other,
    so splitting the result at the spaces gives back as many fields as
    there were tokens.  The space is not a letter in the letter table. *)
Theorem NormalizeText_keeps_every_token
  (unicode_L : rune -> bool) (text : gostring) (st : RuStemmer) :
  unicode_L 32 = false ->
  exists stems st',
    NormalizeText unicode_L text st = Ok (Join stems (lit " ")) st'
    /\ Forall2 (fun tok stem =>
                  forall st0, exists st1, GetWordBase tok st0 = Ok stem st1)
               (FindAllString unicode_L text) stems
    /\ length stems = length (FindAllString unicode_L text)
    /\ (stems <> [] -> split_spaces [] (Join stems (lit " ")) = stems)
    /\ (forall st0, exists st1, GetWordBase (lit "а") st0 = Ok [] st1).
Proof.
  intros HL.
  destruct (for_each_word_run (FindAllString unicode_L text) st)
    as (stems & st' & E & HF).
  exists stems, st'. split; [|split; [exact HF|split; [|split]]].
  - unfold NormalizeText, RuStemmer_NormalizeText, bind. rewrite E.
    reflexivity.
  - symmetry. eapply Forall2_length. exact HF.
  - intros Hne. apply split_spaces_Join; [exact Hne|].
    assert (Htok : Forall (Forall (fun b => b <> space))
                          (FindAllString unicode_L text)).
    { apply find_words_no_space; [exact HL|constructor|constructor]. }
    clear E Hne. induction HF as [|tok stem toks stems' Hrel _ IH];
      [constructor|].
    inversion Htok as [|? ? Ht Hts]; subst.
    constructor; [|apply IH; exact Hts].
    destruct (Hrel New) as (st1 & E1).
    eapply GetWordBase_no_space; eassumption.
  - intros st0. rewrite GetWordBase_instance. eexists. vm_compute.
    reflexivity.
Qed.

Lemma NormalizeText_keeps_every_token_witness :
  exists stems st',
    NormalizeText cyrillic_basic (lit "а и я") New
    = Ok (Join stems (lit " ")) st'
    /\ Forall2 (fun tok stem =>
                  forall st0, exists st1, GetWordBase tok st0 = Ok stem st1)
               (FindAllString cyrillic_basic (lit "а и я")) stems
    /\ length stems = length (FindAllString cyrillic_basic (lit "а и я"))
    /\ (stems <> [] -> split_spaces [] (Join stems (lit " ")) = stems)
    /\ (forall st0, exists st1, GetWordBase (lit "а") st0 = Ok [] st1).
Proof.
  apply (NormalizeText_keeps_every_token cyrillic_basic (lit "а и я") New).
  reflexivity.
Defined.

(** The text "а и я" has three tokens, each stemmed to the empty string:
    the result is the two separators. *)
Example NormalizeText_empty_stems :
  NormalizeText cyrillic_basic (lit "а и я") New
  = Ok (lit "  ") (mkRuStemmer [] 0 0).
Proof. vm_compute. reflexivity. Qed.

(** C10. The runes of [GetWordBase(word)] are an initial segment of the
    runes decoded from [word]; in particular the result has no more runes
    than the input. *)
Theorem GetWordBase_prefix (s : gostring) (st : RuStemmer) :
  exists out st' rest,
    GetWordBase s st = Ok out st'
    /\ runes_of_string s = runes_of_string out ++ rest
    /\ (length (runes_of_string out) <= length (runes_of_string s))%nat.
Proof.
  destruct (GetWordBase_run s st) as (st' & E & _ & _ & Hv & rest & Hw).
  exists (string_of_runes (word st')), st', rest.
  rewrite runes_of_string_of_runes by exact Hv.
  split; [exact E|]. split; [exact Hw|].
  rewrite Hw, length_app. lia.
Qed.

(** * Further properties of the code *)

(** ** [appendPrefix] *)

Lemma appendPrefix_inner_map (str : gostring) (prefixes : list gostring) :
  appendPrefix_inner str prefixes = map (fun prefix => prefix ++ str) prefixes.
Proof.
  induction prefixes as [|p ps IH]; [reflexivity|].
  cbn [appendPrefix_inner map]. rewrite IH. reflexivity.
Qed.

Lemma appendPrefix_flat (strs : list gostring)
  (prefixesPacks : list (list gostring)) :
  appendPrefix strs prefixesPacks
  = flat_map (fun str => map (fun prefix => prefix ++ str)
                             (concat prefixesPacks)) strs.
Proof.
  unfold appendPrefix. induction strs as [|str strs IH]; [reflexivity|].
  cbn [flat_map]. rewrite IH. f_equal. clear IH.
  induction prefixesPacks as [|ps pss IHp]; [reflexivity|].
  cbn [flat_map concat]. rewrite map_app, IHp, appendPrefix_inner_map.
  reflexivity.
Qed.

(** X1. [appendPrefix] returns exactly the strings [prefix + str] for [str]
    in [strs] and [prefix] in one of the packs, one for each such pair. *)
Theorem appendPrefix_pairs (strs : list gostring)
  (prefixesPacks : list (list gostring)) :
  (forall x, In x (appendPrefix strs prefixesPacks)
             <-> exists str prefix,
                   In str strs /\ In prefix (concat prefixesPacks)
                   /\ x = prefix ++ str)
  /\ length (appendPrefix strs prefixesPacks)
     = (length strs * length (concat prefixesPacks))%nat.
Proof.
  rewrite appendPrefix_flat. split.
  - intros x. rewrite in_flat_map. split.
    + intros (str & Hstr & Hx). apply in_map_iff in Hx.
      destruct Hx as (prefix & <- & Hp). exists str, prefix. auto.
    + intros (str & prefix & Hstr & Hp & ->). exists str. split; [exact Hstr|].
      apply in_map_iff. exists prefix. auto.
  - induction strs as [|str strs IH]; [reflexivity|].
    change (length (map (fun prefix => prefix ++ str) (concat prefixesPacks)
                    ++ flat_map (fun str0 => map (fun prefix => prefix ++ str0)
                                                 (concat prefixesPacks)) strs)
            = (length (str :: strs) * length (concat prefixesPacks))%nat).
    rewrite length_app, length_map. cbn [length].
    apply (f_equal (Nat.add (length (concat prefixesPacks)))) in IH.
    exact IH.
Qed.

(** ** [isVowel] *)

(** X2. [isVowel(string(c))] holds for the ten runes а е ё и о у ы э ю я
    and for no other rune: the byte-wise substring test of
    [strings.Contains] never accepts a rune through a partial match. *)
Theorem isVowel_exactly_the_vowels (c : rune) :
  isVowel (encode_rune c) = true
  <-> In c [0x430; 0x435; 0x451; 0x438; 0x43E; 0x443; 0x44B; 0x44D; 0x44E;
            0x44F].
Proof.
  rewrite isVowel_spec. change vowel_runes
    with [0x430; 0x435; 0x451; 0x438; 0x43E; 0x443; 0x44B; 0x44D; 0x44E;
          0x44F].
  reflexivity.
Qed.

(** ** [findRegions] *)

(** X3. Started with [RV = 0], [findRegions] leaves the word as it is and
    sets [RV] just after the first vowel it finds from index 1 on, or
    leaves it at 0; for a word that does not begin with a vowel this is
    the offset just after the first vowel of the word. *)
Theorem findRegions_RV_from_index_1 (w : list rune) :
  exists st',
    findRegions (mkRuStemmer w 0 0) = Ok tt st'
    /\ word st' = w
    /\ RV st' = match first_vowel (tl w) with
                | Some k => Z.of_nat k + 2
                | None => 0
                end
    /\ (first_vowel w <> Some 0%nat -> RV st' = after_first_vowel w).
Proof.
  destruct (findRegions_RV w) as (st' & E & Hw & Hrv).
  exists st'. split; [exact E|]. split; [exact Hw|]. split; [exact Hrv|].
  intros H0. rewrite Hrv. unfold after_first_vowel.
  destruct w as [|c w]; [reflexivity|].
  cbn [tl first_vowel] in *. destruct (isVowel (encode_rune c)).
  - congruence.
  - destruct (first_vowel w); cbn [option_map]; lia.
Qed.

Lemma vowel_at_functional (w : list rune) (k : Z) :
  vowel_at w k true -> vowel_at w k false -> False.
Proof.
  intros (_ & c & Hc & Hv) (_ & c' & Hc' & Hv'). congruence.
Qed.

Lemma findRegions_loop_regions (w : list rune) (n : nat) (i state : Z)
  (st : RuStemmer) :
  1 <= i -> i + Z.of_nat n = len w ->
  regions_loop_inv w i state st ->
  wp (findRegions_loop n i state) (fun _ st' => regions_ok w st') st.
Proof.
  revert i state st. induction n as [|n IH]; intros i state st Hi Hn Hinv.
  - apply wp_ret. destruct Hinv as (Hw & Hr2 & Hs). unfold regions_ok.
    split; [exact Hw|].
    destruct Hs as [(_ & Hrv)|[(_ & Hrv & Hv)|(_ & Hrv & Hv & _)]].
    + rewrite Hrv, Hr2. unfold len.
      split; [lia|]. split; [auto|]. split; intros; congruence.
    + split; [lia|]. split; [intros; exact Hr2|].
      split; [intros _; split; [lia|exact Hv]|intros; congruence].
    + split; [lia|]. split; [intros; exact Hr2|].
      split; [intros _; split; [lia|exact Hv]|intros; congruence].
  - cbn [findRegions_loop]. destruct Hinv as (Hw & Hr2 & Hs).
    apply wp_bind, wp_get_word. rewrite Hw.
    apply wp_bind, wp_index; [lia|]. intros p Hp.
    apply wp_bind, wp_index; [lia|]. intros c Hc.
    assert (Hrec : forall state' st',
               regions_loop_inv w (i + 1) state' st' ->
               wp (findRegions_loop n (i + 1) state')
                  (fun _ st'' => regions_ok w st'') st').
    { intros state' st' H. apply IH; [lia|lia|exact H]. }
    destruct Hs as [(-> & Hrv)|[(-> & Hrv & Hv)|(-> & Hrv & Hv & Hgap)]].
    + change (0 =? 0) with true. cbv iota.
      destruct (isVowel (encode_rune c)) eqn:Ec.
      * apply wp_bind. unfold wp at 1, set_RV. apply Hrec.
        split; [exact Hw|]. split; [exact Hr2|]. right. left.
        cbn [RV]. split; [reflexivity|]. split; [lia|].
        replace (i + 1 - 1) with i by lia.
        split; [lia|]. exists c. auto.
      * apply Hrec. split; [exact Hw|]. split; [exact Hr2|]. left. auto.
    + change (1 =? 0) with false. change (1 =? 1) with true. cbv iota.
      destruct (isVowel (encode_rune p) && negb (isVowel (encode_rune c)))
        eqn:Econd.
      * apply Hrec. split; [exact Hw|]. split; [exact Hr2|]. right. right.
        split; [reflexivity|]. split; [lia|]. split; [exact Hv|].
        replace (i + 1 - 1) with i by lia. intros Hvi. exfalso.
        apply andb_true_iff in Econd. destruct Econd as [_ Ec].
        apply negb_true_iff in Ec.
        apply (vowel_at_functional w i Hvi).
        split; [lia|]. exists c. auto.
      * apply Hrec. split; [exact Hw|]. split; [exact Hr2|]. right. left.
        split; [reflexivity|]. split; [lia|exact Hv].
    + change (2 =? 0) with false. change (2 =? 1) with false.
      change (2 =? 2) with true. cbv iota.
      destruct (isVowel (encode_rune p) && negb (isVowel (encode_rune c)))
        eqn:Econd.
      * apply andb_true_iff in Econd. destruct Econd as [Ep Ec].
        apply negb_true_iff in Ec.
        assert (Hvp : vowel_at w (i - 1) true).
        { split; [lia|]. exists p. auto. }
        specialize (Hgap Hvp).
        apply wp_bind. unfold wp at 1, set_R2. apply wp_ret.
        unfold regions_ok. cbn [word RV R2].
        split; [exact Hw|]. split; [lia|]. split; [intros; lia|].
        split; [intros _; split; [lia|exact Hv]|].
        intros _. split; [lia|].
        replace (i + 1 - 2) with (i - 1) by lia.
        replace (i + 1 - 1) with i by lia.
        split; [exact Hvp|]. split; [lia|]. exists c. auto.
      * apply Hrec. split; [exact Hw|]. split; [exact Hr2|]. right. right.
        split; [reflexivity|]. split; [lia|]. split; [exact Hv|].
        intros _. lia.
Qed.

(** X4. The regions [findRegions] computes: the word is not touched,
    [0 <= RV <= len(word)], [RV] is 0 or at least 2 and just after a vowel,
    and [R2] is 0 or lies in [RV + 3 .. len(word)], just after a vowel
    followed by a non-vowel; without [RV] there is no [R2]. *)
Theorem findRegions_regions (w : list rune) :
  exists st', findRegions (mkRuStemmer w 0 0) = Ok tt st' /\ regions_ok w st'.
Proof.
  assert (H : wp findRegions (fun _ st' => regions_ok w st')
                 (mkRuStemmer w 0 0)).
  { unfold findRegions. apply wp_bind, wp_get_word. cbn [word].
    destruct w as [|c w].
    - apply wp_ret. unfold regions_ok. cbn [word RV R2]. unfold len.
      cbn [length]. split; [reflexivity|]. split; [lia|].
      split; [auto|]. split; intros; congruence.
    - apply findRegions_loop_regions; [lia|unfold len; cbn [length]; lia|].
      split; [reflexivity|]. split; [reflexivity|]. left. auto. }
  apply wp_Ok in H. destruct H as ([] & st' & E & H). eauto.
Qed.

(** ** [removeEndings] on words and suffixes of whole runes *)

(** X5. On a word of Unicode scalar values and with suffixes that start at
    a rune boundary, a call that returns [true] has removed the runes of
    exactly one non-empty entry of its packs from the end of the word,
    without reaching into the first [min(region, len(word))] runes; a call
    that returns [false] has changed nothing; [RV] and [R2] are never
    written. *)
Theorem removeEndings_cuts_whole_runes
  (st : RuStemmer) (region : Z) (packs : list (list gostring)) :
  0 <= region -> packs <> [] ->
  Forall valid_rune (word st) ->
  aligned_packs packs = true ->
  exists matched st',
    removeEndings region packs st = Ok matched st'
    /\ RV st' = RV st /\ R2 st' = R2 st
    /\ if matched then
         exists cut,
           word st = word st' ++ cut /\ cut <> []
           /\ In (string_of_runes cut) (concat packs)
           /\ Z.min region (len (word st)) <= len (word st')
       else st' = st.
Proof.
  intros Hr Hp Hv Hal.
  destruct (removeEndings_stripped region packs st Hr Hp) as (b & st' & E & Hs).
  exists b, st'. split; [exact E|].
  pose proof Hs as (Hrv & Hr2 & Hb). split; [exact Hrv|]. split; [exact Hr2|].
  destruct b; [|exact Hb].
  destruct (stripped_runes region packs st st' Hv
              (aligned_packs_Forall _ Hal) Hs) as (w2 & Hw & Hne & Hin & Hle).
  exists w2. split; [exact Hw|]. split; [exact Hne|]. split; [exact Hin|].
  unfold clamp, len in *. lia.
Qed.

Lemma removeEndings_cuts_whole_runes_witness :
  exists matched st',
    removeEndings 2 suffixVerb
      (mkRuStemmer (runes_of_string (lit "читала")) 2 0) = Ok matched st'
    /\ RV st' = 2 /\ R2 st' = 0
    /\ if matched then
         exists cut,
           runes_of_string (lit "читала") = word st' ++ cut /\ cut <> []
           /\ In (string_of_runes cut) (concat suffixVerb)
           /\ Z.min 2 (len (runes_of_string (lit "читала"))) <= len (word st')
       else st' = mkRuStemmer (runes_of_string (lit "читала")) 2 0.
Proof.
  apply (removeEndings_cuts_whole_runes
           (mkRuStemmer (runes_of_string (lit "читала")) 2 0) 2 suffixVerb).
  - lia.
  - discriminate.
  - apply runes_of_string_valid.
  - vm_compute. reflexivity.
Defined.

(** A suffix that starts inside a rune is different: the bytes left over
    decode to U+FFFD, and the call can report a removal although the word
    reads the same afterwards. *)
Example removeEndings_inside_a_rune :
  removeEndings 0 [[ [xbf; xbd] ]] (mkRuStemmer [RuneError] 0 0)
  = Ok true (mkRuStemmer [RuneError] 0 0).
Proof. vm_compute. reflexivity. Qed.

(** ** The result of [GetWordBase] *)

(** X6. The string [GetWordBase] returns is well-formed UTF-8 whatever the
    bytes of the input were: it is the encoding of Unicode scalar values,
    so converting it to runes and back gives the same string. *)
Theorem GetWordBase_result_is_utf8 (s : gostring) (st : RuStemmer) :
  exists out st',
    GetWordBase s st = Ok out st'
    /\ Forall valid_rune (runes_of_string out)
    /\ string_of_runes (runes_of_string out) = out.
Proof.
  destruct (GetWordBase_run s st) as (st' & E & _ & _ & Hv & _).
  exists (string_of_runes (word st')), st'.
  rewrite runes_of_string_of_runes by exact Hv.
  split; [exact E|]. split; [exact Hv|reflexivity].
Qed.

(** A byte that is not UTF-8 comes back as the three bytes of U+FFFD. *)
Example GetWordBase_malformed_byte :
  GetWordBase [xff] New = Ok [xef; xbf; xbd] (mkRuStemmer [RuneError] 0 0).
Proof. vm_compute. reflexivity. Qed.

(** ** Invariants of the four steps *)

Lemma package_packs_nonempty (packs : list (list gostring)) :
  In packs package_packs -> packs <> [].
Proof.
  unfold package_packs. intros H.
  repeat (destruct H as [<-|H]; [discriminate|]). destruct H.
Qed.

Lemma package_packs_aligned (packs : list (list gostring)) :
  In packs package_packs -> aligned_packs packs = true.
Proof.
  intros H.
  assert (E : forallb aligned_packs package_packs = true)
    by (vm_compute; reflexivity).
  rewrite forallb_forall in E. apply E. exact H.
Qed.

Section StepInvariant.

(** A property of the stemmer that every call made by the steps keeps. *)
Variable I : RuStemmer -> Prop.

Hypothesis I_regions : forall st, I st -> 0 <= RV st /\ 0 <= R2 st.

Hypothesis I_remove :
  forall st region packs b st',
    I st -> region = RV st \/ region = R2 st -> In packs package_packs ->
    stripped region packs st b st' -> I st'.

Hypothesis I_nn :
  forall st st1,
    I st -> stripped (RV st) [suffixNN] st true st1 ->
    I (mkRuStemmer (runes_of_string (string_of_runes (word st1) ++ lit "н"))
         (RV st1) (R2 st1)).

Lemma wp_remove_I (st : RuStemmer) (region : Z)
  (packs : list (list gostring)) (Q : bool -> RuStemmer -> Prop) :
  I st -> region = RV st \/ region = R2 st -> In packs package_packs ->
  (forall b st', I st' -> stripped region packs st b st' -> Q b st') ->
  wp (removeEndings region packs) Q st.
Proof.
  intros HI Hreg Hin HQ. apply wp_removeEndings.
  - destruct (I_regions st HI). destruct Hreg; lia.
  - apply package_packs_nonempty. exact Hin.
  - intros b st' Hs. apply HQ; [|exact Hs].
    exact (I_remove st region packs b st' HI Hreg Hin Hs).
Qed.

Ltac in_package :=
  unfold package_packs; repeat first [left; reflexivity | right].

Lemma steps_keep_I (st : RuStemmer) :
  I st ->
  wp (bind Step1 (fun _ => bind Step2 (fun _ => bind Step3 (fun _ => Step4))))
     (fun _ st' => I st') st.
Proof.
  intros H0.
  assert (S1 : wp Step1 (fun _ st' => I st') st).
  { unfold Step1, orM, andM, notM.
    apply wp_bind, wp_get_RV, wp_bind.
    apply wp_remove_I; [exact H0|left; reflexivity|in_package|].
    intros gerund st1 H1 _.
    destruct gerund; cbn [negb]; [apply wp_ret; exact H1|].
    apply wp_bind, wp_get_RV, wp_bind.
    apply wp_remove_I; [exact H1|left; reflexivity|in_package|].
    intros _ st2 H2 _.
    apply wp_bind, wp_bind, wp_bind, wp_get_RV.
    apply wp_remove_I; [exact H2|left; reflexivity|in_package|].
    intros part st3 H3 _. destruct part.
    { apply wp_ret, wp_bind, wp_bind, wp_ret. cbn [negb].
      apply wp_ret, wp_ret. exact H3. }
    apply wp_bind, wp_get_RV.
    apply wp_remove_I; [exact H3|left; reflexivity|in_package|].
    intros ife st4 H4 _.
    apply wp_bind, wp_bind, wp_ret. destruct ife; cbn [negb].
    { apply wp_ret, wp_ret. exact H4. }
    apply wp_bind, wp_bind, wp_get_RV.
    apply wp_remove_I; [exact H4|left; reflexivity|in_package|].
    intros verb st5 H5 _. apply wp_ret. destruct verb; cbn [negb].
    { apply wp_ret. exact H5. }
    apply wp_bind, wp_get_RV, wp_bind.
    apply wp_remove_I; [exact H5|left; reflexivity|in_package|].
    intros _ st6 H6 _. apply wp_ret. exact H6. }
  apply wp_bind. eapply wp_mono; [|exact S1]. cbv beta. intros _ st1 H1.
  apply wp_bind. unfold Step2. apply wp_bind, wp_get_RV, wp_bind.
  apply wp_remove_I; [exact H1|left; reflexivity|in_package|].
  intros _ st2 H2 _. apply wp_ret.
  apply wp_bind. unfold Step3. apply wp_bind, wp_get_R2, wp_bind.
  apply wp_remove_I; [exact H2|right; reflexivity|in_package|].
  intros _ st3 H3 _. apply wp_ret.
  unfold Step4. apply wp_bind, wp_get_RV, wp_bind.
  apply wp_remove_I; [exact H3|left; reflexivity|in_package|].
  intros nn st4 H4 Hs. apply wp_bind.
  assert (Hnn : wp (if nn
                    then bind get_word (fun w =>
                           set_word (runes_of_string
                                       (string_of_runes w ++ lit "н")))
                    else ret tt)
                   (fun _ st' => I st') st4).
  { destruct nn; [|apply wp_ret; exact H4].
    apply wp_bind, wp_get_word. unfold wp, set_word.
    exact (I_nn st3 st4 H3 Hs). }
  eapply wp_mono; [|exact Hnn]. cbv beta. intros _ st5 H5.
  apply wp_bind, wp_get_RV, wp_bind.
  apply wp_remove_I; [exact H5|left; reflexivity|in_package|].
  intros _ st6 H6 _.
  apply wp_bind, wp_get_RV, wp_bind.
  apply wp_remove_I; [exact H6|left; reflexivity|in_package|].
  intros _ st7 H7 _. apply wp_ret. exact H7.
Qed.

(** A run of [GetWordBase] ends in a state where [I] holds when the state
    left by [findRegions] satisfies it. *)
Lemma GetWordBase_keeps_I (s : gostring) (st st1 : RuStemmer) :
  findRegions (mkRuStemmer (runes_of_string s) 0 0) = Ok tt st1 ->
  I st1 ->
  exists st',
    GetWordBase s st = Ok (string_of_runes (word st')) st' /\ I st'.
Proof.
  intros E H1. pose proof (steps_keep_I st1 H1) as H.
  apply wp_Ok in H. destruct H as ([] & st' & Es & HI).
  exists st'. split; [|exact HI].
  unfold GetWordBase, RuStemmer_GetWordBase.
  unfold bind at 1, set_word. unfold bind at 1, set_RV.
  unfold bind at 1, set_R2. cbn [word RV R2].
  unfold bind at 1. rewrite E.
  unfold bind in Es. unfold bind.
  destruct (Step1 st1) as [[] a1|]; [|discriminate].
  destruct (Step2 a1) as [[] a2|]; [|discriminate].
  destruct (Step3 a2) as [[] a3|]; [|discriminate].
  rewrite Es. reflexivity.
Qed.

End StepInvariant.

(** ** The stem keeps the runes before [RV] *)

Lemma len_runes_nn (w : list rune) :
  Forall valid_rune w ->
  runes_of_string (string_of_runes w ++ lit "н") = w ++ [1085].
Proof.
  intros Hv. rewrite runes_of_string_app by exact Hv. reflexivity.
Qed.

(** X7. When the regions [findRegions] computed for the word satisfy
    [RV <= R2], the stem is never cut into the first [RV] runes of the
    word: it has at least [RV] runes and they are the first [RV] runes of
    the input. *)
Theorem GetWordBase_keeps_RV_prefix (s : gostring) (rv r2 : Z) :
  findRegions (mkRuStemmer (runes_of_string s) 0 0)
  = Ok tt (mkRuStemmer (runes_of_string s) rv r2) ->
  rv <= r2 ->
  forall st, exists out st',
    GetWordBase s st = Ok out st'
    /\ rv <= len (runes_of_string out)
    /\ firstn (Z.to_nat rv) (runes_of_string out)
       = firstn (Z.to_nat rv) (runes_of_string s).
Proof.
  intros E Hle st.
  set (w0 := runes_of_string s) in *.
  set (I := fun st : RuStemmer =>
              stem_inv w0 st /\ RV st = rv /\ R2 st = r2
              /\ rv <= len (word st)).
  destruct (findRegions_regions w0) as (st1 & E1 & _ & Hrv & _).
  rewrite E in E1. injection E1 as <-. cbn [RV] in Hrv.
  assert (Hkeep : forall st region packs b st',
             I st -> region = RV st \/ region = R2 st ->
             In packs package_packs ->
             stripped region packs st b st' -> I st').
  { intros st0 region packs b st' (Hinv & Hrv0 & Hr20 & Hlen) Hreg Hin Hs.
    pose proof (package_packs_aligned packs Hin) as Hal.
    split; [eapply stripped_inv; eassumption|].
    pose proof Hs as (Erv & Er2 & Hb).
    split; [congruence|]. split; [congruence|].
    destruct b; [|rewrite Hb; exact Hlen].
    destruct Hinv as (_ & _ & Hv & _).
    destruct (stripped_runes region packs st0 st' Hv
                (aligned_packs_Forall _ Hal) Hs) as (_ & _ & _ & _ & Hc).
    unfold clamp, len in *. destruct Hreg; lia. }
  destruct (GetWordBase_keeps_I I) with (s := s) (st := st)
    (st1 := mkRuStemmer w0 rv r2) as (st' & Eg & Hinv & _ & _ & Hlen).
  - intros st0 ((H1 & H2 & _) & _). auto.
  - exact Hkeep.
  - intros st0 st1 HI Hs.
    pose proof (Hkeep st0 (RV st0) [suffixNN] true st1 HI (or_introl eq_refl)
                  ltac:(unfold package_packs; do 8 right; left; reflexivity)
                  Hs) as ((H1 & H2 & Hv1 & _) & H3 & H4 & H5).
    destruct HI as (Hinv0 & _).
    split; [exact (nn_collapse_inv w0 (RV st0) st0 st1 Hinv0 Hs)|].
    cbn [RV R2 word]. split; [exact H3|]. split; [exact H4|].
    rewrite len_runes_nn by exact Hv1. unfold len in *.
    rewrite length_app. cbn [length]. lia.
  - exact E.
  - split; [|split; [reflexivity|split; [reflexivity|exact (proj2 Hrv)]]].
    split; [exact (proj1 Hrv)|]. split; [cbn [R2]; lia|]. split.
    + apply runes_of_string_valid.
    + exists []. symmetry. apply app_nil_r.
  - destruct Hinv as (_ & _ & Hv & rest & Hw0).
    exists (string_of_runes (word st')), st'.
    rewrite runes_of_string_of_runes by exact Hv.
    split; [exact Eg|]. split; [exact Hlen|].
    fold w0. rewrite Hw0. rewrite firstn_app.
    replace (Z.to_nat rv - length (word st'))%nat with 0%nat
      by (unfold len in Hlen; lia).
    cbn [firstn]. rewrite app_nil_r. reflexivity.
Qed.

Lemma GetWordBase_keeps_RV_prefix_witness :
  exists out st',
    GetWordBase (lit "раненнейший") New = Ok out st'
    /\ 2 <= len (runes_of_string out)
    /\ firstn (Z.to_nat 2) (runes_of_string out)
       = firstn (Z.to_nat 2) (runes_of_string (lit "раненнейший")).
Proof.
  apply (fun H1 H2 =>
           GetWordBase_keeps_RV_prefix (lit "раненнейший") 2 5 H1 H2 New).
  - vm_compute. reflexivity.
  - lia.
Defined.

(** Without [R2] the derivational step works on the whole word and can cut
    before [RV]: "кость" has [RV = 2] and no [R2], and its stem is "к". *)
Example GetWordBase_kost :
  findRegions (mkRuStemmer (runes_of_string (lit "кость")) 0 0)
  = Ok tt (mkRuStemmer (runes_of_string (lit "кость")) 2 0)
  /\ GetWordBase (lit "кость") New
     = Ok (lit "к") (mkRuStemmer (runes_of_string (lit "к")) 2 0).
Proof. split; vm_compute; reflexivity. Qed.

(** ** Words that no suffix can end *)

Lemma last_app_ne {A} (a b : list A) (d : A) :
  b <> [] -> last (a ++ b) d = last b d.
Proof.
  intros Hb. rewrite (app_removelast_last d Hb) at 1.
  rewrite app_assoc. apply last_last.
Qed.

(** The runes a successful call cuts end with the last rune of a table
    suffix. *)
Lemma cut_final_rune (packs : list (list gostring)) (cut : list rune) :
  In packs package_packs ->
  In (string_of_runes cut) (concat packs) ->
  Forall valid_rune cut ->
  In (last cut 0) suffix_final_runes.
Proof.
  intros Hp Hin Hv. unfold suffix_final_runes. apply in_map_iff.
  exists (string_of_runes cut). split.
  - rewrite runes_of_string_of_runes by exact Hv. reflexivity.
  - apply in_concat in Hin. destruct Hin as (l & Hl & Hs).
    apply in_concat. exists l. split; [|exact Hs].
    apply in_concat. exists packs. split; assumption.
Qed.

(** No call of the steps cuts a word whose last rune ends no suffix. *)
Lemma quiet_word_not_cut (st st' : RuStemmer) (region : Z)
  (packs : list (list gostring)) :
  Forall valid_rune (word st) ->
  word st = [] \/ ~ In (last (word st) 0) suffix_final_runes ->
  In packs package_packs ->
  stripped region packs st true st' -> False.
Proof.
  intros Hv Hq Hin Hs.
  destruct (stripped_runes region packs st st' Hv
              (aligned_packs_Forall _ (package_packs_aligned _ Hin)) Hs)
    as (cut & Hw & Hne & Hcut & _).
  destruct Hq as [Hnil|Hlast].
  - rewrite Hnil in Hw. destruct (word st'); destruct cut; try discriminate.
    congruence.
  - apply Hlast. rewrite Hw, last_app_ne by exact Hne.
    apply (cut_final_rune packs); [exact Hin|exact Hcut|].
    rewrite Hw in Hv. apply Forall_app in Hv. tauto.
Qed.

(** The suffixes of the tables end with one of seventeen letters:
    а в е и й л м н о т у х ш ы ь ю я. *)
Lemma suffix_final_runes_letters (c : rune) :
  In c suffix_final_runes ->
  In c [0x430; 0x432; 0x435; 0x438; 0x439; 0x43B; 0x43C; 0x43D; 0x43E; 0x442;
        0x443; 0x445; 0x448; 0x44B; 0x44C; 0x44E; 0x44F].
Proof.
  intros H. rewrite <- (nodup_In Z.eq_dec) in H. vm_compute in H.
  repeat (destruct H as [<-|H]; [vm_compute; tauto|]). destruct H.
Qed.

(** X8. A word whose last rune is none of the seventeen letters that end
    the suffixes of the tables (so a word ending with a digit, a Latin or
    capital letter, or a consonant such as "к") goes through all four steps
    untouched: [GetWordBase] returns [string([]rune(word))], which is the
    word itself when it is well-formed UTF-8. *)
Theorem GetWordBase_unchanged (s : gostring) :
  runes_of_string s = []
  \/ ~ In (last (runes_of_string s) 0)
         [0x430; 0x432; 0x435; 0x438; 0x439; 0x43B; 0x43C; 0x43D; 0x43E;
          0x442; 0x443; 0x445; 0x448; 0x44B; 0x44C; 0x44E; 0x44F] ->
  forall st, exists st',
    GetWordBase s st = Ok (string_of_runes (runes_of_string s)) st'
    /\ word st' = runes_of_string s.
Proof.
  intros Hq0 st.
  assert (Hq : runes_of_string s = []
               \/ ~ In (last (runes_of_string s) 0) suffix_final_runes).
  { destruct Hq0 as [H|H]; [left; exact H|right].
    intros Hin. apply H. apply suffix_final_runes_letters. exact Hin. }
  clear Hq0.
  destruct (findRegions_regions (runes_of_string s))
    as (st1 & E1 & Hw1 & (Hrv & _) & Hr2a & _ & Hr2b).
  assert (Hr2 : 0 <= R2 st1).
  { destruct (Z.eq_dec (R2 st1) 0) as [->|Hn]; [lia|].
    destruct (Hr2b Hn) as ((H & _) & _). lia. }
  destruct (GetWordBase_keeps_I (fun st => st = st1)) with (s := s) (st := st)
    (st1 := st1) as (st' & Eg & ->).
  - intros st0 ->. auto.
  - intros st0 region packs b st' -> _ Hin Hs. destruct b.
    + exfalso. eapply (quiet_word_not_cut st1 st' region packs);
        try eassumption; rewrite Hw1;
        [apply runes_of_string_valid|exact Hq].
    + destruct Hs as (_ & _ & ->). reflexivity.
  - intros st0 st2 -> Hs. exfalso.
    eapply (quiet_word_not_cut st1 st2 (RV st1) [suffixNN]);
      try eassumption; rewrite ?Hw1;
      [apply runes_of_string_valid|exact Hq|].
    unfold package_packs. do 8 right. left. reflexivity.
  - exact E1.
  - reflexivity.
  - exists st1. rewrite Hw1 in Eg. split; [exact Eg|exact Hw1].
Qed.

Lemma GetWordBase_unchanged_witness :
  exists st',
    GetWordBase (lit "test123") New
    = Ok (string_of_runes (runes_of_string (lit "test123"))) st'
    /\ word st' = runes_of_string (lit "test123").
Proof.
  apply (fun H => GetWordBase_unchanged (lit "test123") H New).
  right. vm_compute. intuition discriminate.
Defined.

(** ** First hit and longest hit *)

Lemma no_shadow_split (pre post : list gostring) (s : gostring) :
  no_shadow (pre ++ s :: post) = true ->
  Forall (fun p => ~ ends_with p s \/ p = s) post.
Proof.
  induction pre as [|x pre IH]; cbn [app no_shadow]; intros H;
    apply andb_true_iff in H; destruct H as [H1 H2].
  - apply Forall_forall. intros p Hp.
    rewrite forallb_forall in H1. specialize (H1 p Hp).
    apply orb_true_iff in H1. destruct H1 as [H1|H1].
    + left. apply HasSuffix_false. apply negb_true_iff. exact H1.
    + right. apply bytes_eqb_eq. exact H1.
  - apply IH. exact H2.
Qed.

Lemma suffix_of_longer (word p s : gostring) :
  ends_with word p -> ends_with word s -> (length s <= length p)%nat ->
  ends_with p s.
Proof.
  intros [tp Hp] [ts Hs] Hlen. rewrite Hp in Hs.
  apply app_eq_app in Hs. destruct Hs as (l & [[H1 H2]|[H1 H2]]).
  - pose proof (f_equal (@length byte) H2) as Hl. rewrite length_app in Hl.
    assert (l = []) by (destruct l; [reflexivity|cbn [length] in Hl; lia]).
    subst l. exists []. exact (eq_sym H2).
  - exists l. exact H2.
Qed.

Lemma first_hit_longest (tbl : list gostring) (word p : gostring) :
  no_shadow tbl = true -> In p tbl -> ends_with word p ->
  (length (trimFirstSuffix word tbl false) + length p <= length word)%nat.
Proof.
  intros Hns Hin Hend.
  destruct (trimFirstSuffix_cases word tbl false)
    as [(pre & s & post & t & -> & Hpre & Hs & Hw & E)|[Hall E]]; rewrite E.
  - destruct (Nat.le_gt_cases (length p) (length s)) as [Hle|Hgt].
    { rewrite Hw, length_app. lia. }
    exfalso.
    assert (Hne : p <> []) by (intros ->; cbn [length] in Hgt; lia).
    assert (Hps : ends_with p s).
    { apply (suffix_of_longer word); [exact Hend|exists t; exact Hw|lia]. }
    apply in_app_or in Hin. destruct Hin as [Hin|[<-|Hin]].
    + rewrite Forall_forall in Hpre. apply (Hpre p Hin).
      split; [exact Hne|]. split; [exact Hend|discriminate].
    + lia.
    + pose proof (no_shadow_split pre post s Hns) as Hpost.
      rewrite Forall_forall in Hpost.
      destruct (Hpost p Hin) as [H|H]; [contradiction|subst; lia].
  - destruct p as [|b p]; [cbn [length]; lia|]. exfalso.
    rewrite Forall_forall in Hall. apply (Hall _ Hin).
    split; [discriminate|]. split; [exact Hend|discriminate].
Qed.

(** X10. In each list of the package that is scanned without the vowel
    precondition no entry is a proper suffix of a later one, so the entry
    cut by the first hit is also the longest entry that ends the word: the
    number of bytes cut is at least the length of every entry of the list
    that ends the word. *)
Theorem first_hit_is_longest_in_tables (tbl : list gostring)
  (word p : gostring) :
  In tbl ungated_tables -> In p tbl -> ends_with word p ->
  (length (trimFirstSuffix word tbl false) + length p <= length word)%nat.
Proof.
  intros Htbl. apply first_hit_longest.
  assert (E : forallb no_shadow ungated_tables = true)
    by (vm_compute; reflexivity).
  rewrite forallb_forall in E. apply E. exact Htbl.
Qed.

Lemma first_hit_is_longest_in_tables_witness :
  (length (trimFirstSuffix (lit "армиями") suffixNoun false)
   + length (lit "ями") <= length (lit "армиями"))%nat.
Proof.
  apply (first_hit_is_longest_in_tables suffixNoun (lit "армиями") (lit "ями")).
  - unfold ungated_tables. do 2 right. left. reflexivity.
  - apply (in_map lit). do 7 right. left. reflexivity.
  - exists (lit "арми"). reflexivity.
Defined.

(** The first list of the verb pair is different: "но" comes before "нно"
    and is a suffix of it; it is the vowel precondition that lets "нно" be
    reached. *)
Example verb_list_shadow : no_shadow (nth 0 suffixVerb []) = false.
Proof. vm_compute. reflexivity. Qed.

(** ** Step 4 on words that end with "нн" *)

Lemma removeEndings_single_hit (st : RuStemmer) (region : Z)
  (pre post : list gostring) (s t : gostring) :
  0 <= region ->
  string_of_runes (skipn (clamp region (word st)) (word st)) = t ++ s ->
  s <> [] ->
  Forall (fun p => ~ hits false
                       (string_of_runes
                          (skipn (clamp region (word st)) (word st))) p)
         pre ->
  removeEndings region [pre ++ s :: post] st
  = Ok true
      (mkRuStemmer
         (runes_of_string
            (string_of_runes (firstn (clamp region (word st)) (word st)) ++ t))
         (RV st) (R2 st)).
Proof.
  intros Hr Htail Hne Hpre.
  rewrite removeEndings_eq by exact Hr. cbv zeta. unfold removeEndings_plain.
  set (word_ := string_of_runes _) in *.
  rewrite (trimFirstSuffix_hit word_ t s pre post false Hpre);
    [|split; [exact Hne|split; [exists t; exact Htail|discriminate]]
     |exact Htail].
  assert (Hb : bytes_eqb t word_ = false).
  { apply bytes_eqb_neq. rewrite Htail. apply hit_changes. exact Hne. }
  rewrite Hb. reflexivity.
Qed.

Lemma removeEndings_single_miss (st : RuStemmer) (region : Z)
  (suffixes : list gostring) :
  0 <= region ->
  Forall (fun p => ~ hits false
                       (string_of_runes
                          (skipn (clamp region (word st)) (word st))) p)
         suffixes ->
  removeEndings region [suffixes] st = Ok false st.
Proof.
  intros Hr Hall.
  rewrite removeEndings_eq by exact Hr. cbv zeta. unfold removeEndings_plain.
  rewrite (trimFirstSuffix_miss _ suffixes false Hall), bytes_eqb_refl.
  reflexivity.
Qed.

Lemma string_of_runes_not_nil (rs : list rune) :
  rs <> [] -> string_of_runes rs <> [].
Proof.
  destruct rs as [|r rs]; [congruence|]. intros _.
  change (string_of_runes (r :: rs))
    with (encode_rune r ++ string_of_runes rs).
  destruct (encode_rune_shape r) as (b0 & tl & -> & _). discriminate.
Qed.

(** Cutting the runes [sr] that end the word, at a region inside the rest
    of the word. *)
Lemma removeEndings_cut_runes (w sr : list rune) (rv r2 region : Z)
  (pre post : list gostring) :
  Forall valid_rune w -> sr <> [] ->
  0 <= region <= len w ->
  Forall (fun p => ~ hits false
                       (string_of_runes (skipn (Z.to_nat region) w ++ sr)) p)
         pre ->
  removeEndings region [pre ++ string_of_runes sr :: post]
    (mkRuStemmer (w ++ sr) rv r2)
  = Ok true (mkRuStemmer w rv r2).
Proof.
  intros Hv Hne Hr Hpre.
  assert (Hc : clamp region (w ++ sr) = Z.to_nat region).
  { unfold clamp, len in *. rewrite length_app. lia. }
  assert (Hs : skipn (Z.to_nat region) (w ++ sr)
               = skipn (Z.to_nat region) w ++ sr).
  { rewrite skipn_app.
    replace (Z.to_nat region - length w)%nat with 0%nat
      by (unfold len in Hr; lia).
    reflexivity. }
  assert (Hf : firstn (Z.to_nat region) (w ++ sr) = firstn (Z.to_nat region) w).
  { rewrite firstn_app.
    replace (Z.to_nat region - length w)%nat with 0%nat
      by (unfold len in Hr; lia).
    cbn [firstn]. apply app_nil_r. }
  rewrite (removeEndings_single_hit _ region pre post (string_of_runes sr)
             (string_of_runes (skipn (Z.to_nat region) w)));
    cbn [word RV R2]; rewrite ?Hc, ?Hs, ?Hf.
  - rewrite <- string_of_runes_app, firstn_skipn.
    rewrite runes_of_string_of_runes by exact Hv. reflexivity.
  - lia.
  - apply string_of_runes_app.
  - apply string_of_runes_not_nil. exact Hne.
  - exact Hpre.
Qed.

(** An entry whose last byte is not the last byte of the tail misses. *)
Lemma miss_by_last (tail s : gostring) :
  tail = [] \/ last tail x00 <> last s x00 -> ~ hits false tail s.
Proof.
  intros H (Hne & [t Ht] & _). destruct H as [->|H].
  - destruct t; destruct s; try discriminate. congruence.
  - apply H. rewrite Ht. apply last_app_ne. exact Hne.
Qed.

(** The tail of a word that ends with the rune [c] is empty or ends with
    the last byte of [c]. *)
Lemma tail_last (w : list rune) (c : rune) (n : nat) :
  string_of_runes (skipn n (w ++ [c])) = []
  \/ last (string_of_runes (skipn n (w ++ [c]))) x00
     = last (encode_rune c) x00.
Proof.
  destruct (Nat.le_gt_cases n (length w)) as [Hle|Hgt].
  - right. rewrite skipn_app.
    replace (n - length w)%nat with 0%nat by lia. cbn [skipn].
    rewrite string_of_runes_app.
    change (string_of_runes [c]) with (encode_rune c ++ []).
    rewrite app_nil_r. apply last_app_ne.
    destruct (encode_rune_shape c) as (b0 & tl & -> & _). discriminate.
  - left. rewrite skipn_all2; [reflexivity|]. rewrite length_app.
    cbn [length]. lia.
Qed.

(** No entry of a list ends a word whose last rune is [c] when none of
    them ends with the last byte of [c]. *)
Lemma miss_after_rune (w : list rune) (c : rune) (region rv r2 : Z)
  (suffixes : list gostring) :
  0 <= region ->
  forallb (fun s => negb (Byte.eqb (last s x00) (last (encode_rune c) x00)))
          suffixes = true ->
  removeEndings region [suffixes] (mkRuStemmer (w ++ [c]) rv r2)
  = Ok false (mkRuStemmer (w ++ [c]) rv r2).
Proof.
  intros Hr Hall. apply removeEndings_single_miss; [exact Hr|].
  cbn [word]. apply Forall_forall. intros s Hs.
  rewrite forallb_forall in Hall. specialize (Hall s Hs).
  apply negb_true_iff in Hall. apply miss_by_last.
  destruct (tail_last w c (clamp region (w ++ [c]))) as [H|H];
    [left; exact H|right].
  intros E. pose proof (eq_trans (eq_sym E) H) as El.
  apply Byte.byte_dec_lb in El. congruence.
Qed.

(** Rewrite the next call in the goal with an equation proved by [tac]. *)
Ltac call_is b tac :=
  match goal with
  | |- context [removeEndings ?r ?packs ?s] =>
    match goal with
    | |- context [match removeEndings r packs s with _ => _ end] =>
      let E := fresh "E" in
      assert (E : removeEndings r packs s = b) by tac;
      rewrite E; clear E; cbn [RV R2 word]
    end
  end.

(** X9. Step 4 turns a word that ends with "нн" from the region [RV] on
    into the word with one "н": the two runes are cut, one is put back, and
    neither the superlative nor the soft-sign removal finds anything to cut
    after it. *)
Theorem Step4_nn_collapse (w : list rune) (rv r2 : Z) :
  Forall valid_rune w -> 0 <= rv <= len w ->
  Step4 (mkRuStemmer (w ++ [1085; 1085]) rv r2)
  = Ok tt (mkRuStemmer (w ++ [1085]) rv r2).
Proof.
  intros Hv Hrv.
  pose proof (removeEndings_cut_runes w [1085; 1085] rv r2 rv [] []
                Hv ltac:(discriminate) Hrv ltac:(constructor)) as E1.
  change ([] ++ string_of_runes [1085; 1085] :: []) with suffixNN in E1.
  unfold Step4, bind, get_RV, get_word, set_word, ret. cbn [RV R2 word].
  rewrite E1. cbn [RV R2 word]. rewrite len_runes_nn by exact Hv.
  call_is (@Ok bool false (mkRuStemmer (w ++ [1085]) rv r2))
    ltac:(apply (miss_after_rune w 1085); [lia|vm_compute; reflexivity]).
  call_is (@Ok bool false (mkRuStemmer (w ++ [1085]) rv r2))
    ltac:(apply (miss_after_rune w 1085); [lia|vm_compute; reflexivity]).
  reflexivity.
Qed.

Lemma Step4_nn_collapse_witness :
  Step4 (mkRuStemmer (runes_of_string (lit "раненн")) 2 5)
  = Ok tt (mkRuStemmer (runes_of_string (lit "ранен")) 2 5).
Proof.
  apply (Step4_nn_collapse (runes_of_string (lit "ране")) 2 5).
  - apply runes_of_string_valid.
  - vm_compute. split; discriminate.
Defined.

(** X11. Step 4 tests for "нн" before it removes the superlative ending
    and not again after it: from a word that ends with "ннейш" the
    superlative "ейш" is cut and both "н" stay. *)
Theorem Step4_superlative_leaves_nn (w : list rune) (rv r2 : Z) :
  Forall valid_rune w -> 0 <= rv <= len w + 2 ->
  Step4 (mkRuStemmer (w ++ [1085; 1085; 1077; 1081; 1096]) rv r2)
  = Ok tt (mkRuStemmer (w ++ [1085; 1085]) rv r2).
Proof.
  intros Hv Hrv.
  assert (Hv2 : Forall valid_rune (w ++ [1085; 1085])).
  { apply Forall_app. split; [exact Hv|].
    repeat constructor; unfold valid_rune; lia. }
  assert (Hlen : 0 <= rv <= len (w ++ [1085; 1085])).
  { unfold len in *. rewrite length_app. cbn [length]. lia. }
  pose proof (miss_after_rune (w ++ [1085; 1085; 1077; 1081]) 1096 rv rv r2
                suffixNN ltac:(lia) ltac:(vm_compute; reflexivity)) as E1.
  rewrite <- app_assoc in E1. cbn [app] in E1.
  pose proof (removeEndings_cut_runes (w ++ [1085; 1085]) [1077; 1081; 1096]
                rv r2 rv [] [lit "ейше"] Hv2 ltac:(discriminate) Hlen
                ltac:(constructor)) as E2.
  rewrite <- app_assoc in E2. cbn [app] in E2.
  change (string_of_runes [1077; 1081; 1096] :: [lit "ейше"])
    with suffixSuperlative in E2.
  pose proof (miss_after_rune (w ++ [1085]) 1085 rv rv r2
                suffixSoftSign ltac:(lia) ltac:(vm_compute; reflexivity)) as E3.
  rewrite <- app_assoc in E3. cbn [app] in E3.
  unfold Step4, bind, get_RV, get_word, set_word, ret. cbn [RV R2 word].
  call_is (@Ok bool false
             (mkRuStemmer (w ++ [1085; 1085; 1077; 1081; 1096]) rv r2))
    ltac:(exact E1).
  call_is (@Ok bool true (mkRuStemmer (w ++ [1085; 1085]) rv r2))
    ltac:(exact E2).
  call_is (@Ok bool false (mkRuStemmer (w ++ [1085; 1085]) rv r2))
    ltac:(exact E3).
  reflexivity.
Qed.

Lemma Step4_superlative_leaves_nn_witness :
  Step4 (mkRuStemmer (runes_of_string (lit "раненнейш")) 2 5)
  = Ok tt (mkRuStemmer (runes_of_string (lit "раненн")) 2 5).
Proof.
  apply (Step4_superlative_leaves_nn (runes_of_string (lit "ране")) 2 5).
  - apply runes_of_string_valid.
  - vm_compute. split; discriminate.
Defined.

(** ** [NormalizeText] on a single word and on no word *)

Lemma find_words_all (unicode_L : rune -> bool) (s : gostring) :
  forall skip inword cur,
    skip = 0%nat \/ inword = true ->
    Forall (fun c => word_char unicode_L c = true) (decode_from skip s) ->
    find_words unicode_L skip inword cur s = emit (cur ++ s).
Proof.
  induction s as [|b s IH]; intros skip inword cur Hin Hall.
  - cbn [find_words]. rewrite app_nil_r. reflexivity.
  - cbn [find_words decode_from] in *. destruct skip as [|k].
    + destruct (decode_rune (b :: s)) as [c n].
      inversion Hall as [|? ? Hc Hrest]; subst. rewrite Hc.
      rewrite IH; [|right; reflexivity|exact Hrest].
      rewrite <- app_assoc. reflexivity.
    + destruct Hin as [Hin|Hin]; [discriminate|]. subst inword.
      rewrite IH; [|right; reflexivity|exact Hall].
      rewrite <- app_assoc. reflexivity.
Qed.

Lemma find_words_none (unicode_L : rune -> bool) (s : gostring) :
  forall skip,
    Forall (fun c => word_char unicode_L c = false) (decode_from skip s) ->
    find_words unicode_L skip false [] s = [].
Proof.
  induction s as [|b s IH]; intros skip Hall; [reflexivity|].
  cbn [find_words decode_from] in *. destruct skip as [|k].
  - destruct (decode_rune (b :: s)) as [c n].
    inversion Hall as [|? ? Hc Hrest]; subst. rewrite Hc.
    cbn [emit app]. apply IH. exact Hrest.
  - apply IH. exact Hall.
Qed.

(** X12. On a text that is one word (not empty, every rune a letter, a
    digit or the underscore) [NormalizeText] returns what [GetWordBase]
    returns for the text, and leaves the instance in the same state. *)
Theorem NormalizeText_single_word (unicode_L : rune -> bool)
  (text : gostring) (st : RuStemmer) :
  text <> [] ->
  Forall (fun c => word_char unicode_L c = true) (runes_of_string text) ->
  exists out st',
    GetWordBase text st = Ok out st'
    /\ NormalizeText unicode_L text st = Ok out st'.
Proof.
  intros Hne Hall.
  destruct (GetWordBase_run text st) as (st' & E & _).
  exists (string_of_runes (word st')), st'. split; [exact E|].
  unfold NormalizeText, RuStemmer_NormalizeText, FindAllString.
  rewrite (find_words_all unicode_L text 0 false [])
    by (auto || exact Hall).
  cbn [app]. destruct text as [|b text]; [congruence|].
  cbn [emit for_each_word]. unfold bind, ret.
  unfold GetWordBase in E. rewrite E. reflexivity.
Qed.

Lemma NormalizeText_single_word_witness :
  exists out st',
    GetWordBase (lit "вазы") New = Ok out st'
    /\ NormalizeText cyrillic_basic (lit "вазы") New = Ok out st'.
Proof.
  apply (NormalizeText_single_word cyrillic_basic (lit "вазы") New).
  - discriminate.
  - vm_compute. repeat constructor.
Defined.

(** X13. On a text without any letter, digit or underscore (the empty text
    among them) [NormalizeText] returns the empty string and does not call
    the stemmer: the instance keeps the state it had. *)
Theorem NormalizeText_no_word (unicode_L : rune -> bool)
  (text : gostring) (st : RuStemmer) :
  Forall (fun c => word_char unicode_L c = false) (runes_of_string text) ->
  NormalizeText unicode_L text st = Ok [] st.
Proof.
  intros Hall.
  unfold NormalizeText, RuStemmer_NormalizeText, FindAllString.
  rewrite (find_words_none unicode_L text 0 Hall). reflexivity.
Qed.

Lemma NormalizeText_no_word_witness :
  NormalizeText cyrillic_basic (lit ".., - !") New = Ok [] New.
Proof.
  apply (NormalizeText_no_word cyrillic_basic (lit ".., - !") New).
  vm_compute. repeat constructor.
Defined.

(** ** [trimFirstSuffix] as a function on strings *)

(** X14. [trimFirstSuffix] returns the word with at most one entry of the
    list cut from its end, and the word itself when the list is empty or
    the word is empty; called with [isAYA], a result that differs from the
    word ends with "а" or "я". *)
Theorem trimFirstSuffix_result (word : gostring) (suffixes : list gostring)
  (isAYA : bool) :
  (trimFirstSuffix word suffixes isAYA = word
   \/ exists s, In s suffixes /\ s <> []
                /\ word = trimFirstSuffix word suffixes isAYA ++ s
                /\ (isAYA = true ->
                    ends_with (trimFirstSuffix word suffixes isAYA) (lit "а")
                    \/ ends_with (trimFirstSuffix word suffixes isAYA)
                         (lit "я")))
  /\ trimFirstSuffix word [] isAYA = word
  /\ trimFirstSuffix [] suffixes isAYA = [].
Proof.
  split; [|split; [reflexivity|apply trimFirstSuffix_nil]].
  destruct (trimFirstSuffix_cases word suffixes isAYA)
    as [(pre & s & post & t & -> & _ & (Hne & _ & Hgate) & Hw & E)|[_ E]];
    rewrite E; [right|left; reflexivity].
  exists s. split; [apply in_elt|]. split; [exact Hne|]. split; [exact Hw|].
  intros Ha. destruct (Hgate Ha) as [[t' Ht]|[t' Ht]]; [left|right];
    exists t'; rewrite Hw, app_assoc in Ht;
    apply app_inv_tail in Ht; exact Ht.
Qed.
